(** * Graph ADT with DFS topological ordering

    A shallow embedding of the [Graph] class of [Project2_Refined.py] and of
    its near copy in [Reorganized_Project2.py], with the properties of
    [add_vertex], [add_edge] and [topological_sort].

    Modelling choices.
    - A vertex is a string (the course codes of the program).
    - [self.adjacency_list] is a Python dict whose insertion order drives the
      traversal: it is an association list, kept in insertion order.
    - [visit_state] is a dict that is only read and written by key: a [gmap].
    - Methods are state transformers on the object they receive; a subscript
      on a missing key raises [KeyError].
    - The interpreter bounds the nesting of calls and raises
      [RecursionError] beyond its limit. [topological_sort] takes, as
      [depth], the number of nested calls of its helper [dfs] that the limit
      still allows when it is called; the helper recurses on it. *)

From stdpp Require Import base option list gmap strings relations pretty.
From Stdlib Require Import Lia Ascii.

Abbreviation Vertex := string (only parsing).

(** ** Outcomes and the state monad of a method call *)

(** What a call does: it returns, or it raises [KeyError] on a missing key,
    or it raises [RecursionError] when the calls nest deeper than the
    interpreter allows. *)
Inductive outcome (A : Type) : Type :=
  | Ok (a : A)
  | KeyError
  | RecursionError.
Arguments Ok {A} a.
Arguments KeyError {A}.
Arguments RecursionError {A}.

Definition M (S A : Type) : Type := S → outcome (A * S).

Definition ret {S A} (a : A) : M S A := λ s, Ok (a, s).

Definition bind {S A B} (c : M S A) (k : A → M S B) : M S B :=
  λ s, match c s with
       | Ok (a, s') => k a s'
       | KeyError => KeyError
       | RecursionError => RecursionError
       end.

Definition get {S} : M S S := λ s, Ok (s, s).
Definition put {S} (s : S) : M S unit := λ _, Ok (tt, s).
Definition raise_KeyError {S A} : M S A := λ _, KeyError.
Definition raise_RecursionError {S A} : M S A := λ _, RecursionError.

Notation "x <- c ;; k" := (bind c (λ x, k))
  (at level 100, c at next level, right associativity).
Notation "c ;;; k" := (bind c (λ _, k))
  (at level 100, right associativity).

(** [for x in l: body(x)], over a snapshot of the sequence. *)
Fixpoint for_each {S A} (l : list A) (body : A → M S unit) : M S unit :=
  match l with
  | [] => ret tt
  | x :: l' => body x ;;; for_each l' body
  end.

(** ** Insertion-ordered dictionaries *)

Section dict.
Context {V : Type}.

(** [d[k]] as an expression: the value bound to [k], if any. *)
Fixpoint dict_get (k : Vertex) (d : list (Vertex * V)) : option V :=
  match d with
  | [] => None
  | (k', v) :: d' => if decide (k = k') then Some v else dict_get k d'
  end.

(** [k in d]. *)
Definition dict_mem (k : Vertex) (d : list (Vertex * V)) : bool :=
  bool_decide (is_Some (dict_get k d)).

(** [d[k] = v]: the binding of an existing key is replaced where it
    stands, a new key goes to the end. *)
Fixpoint dict_set (k : Vertex) (v : V) (d : list (Vertex * V)) :
    list (Vertex * V) :=
  match d with
  | [] => [(k, v)]
  | (k', v') :: d' =>
      if decide (k = k') then (k', v) :: d' else (k', v') :: dict_set k v d'
  end.

(** The keys, in iteration order. *)
Definition dict_keys (d : list (Vertex * V)) : list Vertex := d.*1.
End dict.

(** [list.index]: the position of the first occurrence. *)
Fixpoint index (x : Vertex) (l : list Vertex) : option nat :=
  match l with
  | [] => None
  | y :: l' => if decide (x = y) then Some 0 else S <$> index x l'
  end.

(** ** The console *)

(** How a call that prints ends, with the text it has put on the standard
    output: it returns, or the test [i % courses_per_line] divides by zero. *)
Inductive printed : Type :=
  | Returned (stdout : string)
  | ZeroDivisionError (stdout : string).

Definition newline : string := String "010"%char EmptyString.

(** [print(text, end=ending)], after what is on the standard output. *)
Definition print (text ending stdout : string) : string :=
  stdout +:+ text +:+ ending.

(** [text * n] *)
Fixpoint repeat_string (text : string) (n : nat) : string :=
  match n with
  | 0 => ""
  | S n' => text +:+ repeat_string text n'
  end.

(** [f"{n:02}"] for a number that is not negative: its decimal digits, with
    a zero in front when there is one digit only. *)
Definition format_02 (n : nat) : string :=
  repeat_string "0" (2 - String.length (pretty n)) +:+ pretty n.

(** [f"{text:<10}"]: the text, filled with spaces on the right up to ten
    characters. Strings are sequences of bytes here, so the count is that of
    Python for ASCII text. *)
Definition format_left_10 (text : string) : string :=
  text +:+ repeat_string " " (10 - String.length text).

(** ** The class of [Project2_Refined.py] *)

Module Refined.

Record Graph : Type := mkGraph {
  adjacency_list : list (Vertex * list Vertex)
}.

(** [__init__] *)
Definition init : Graph := mkGraph [].

Definition add_vertex (vertex : Vertex) : M Graph unit :=
  self <- get ;;
  if negb (dict_mem vertex (adjacency_list self))
  then put (mkGraph (dict_set vertex [] (adjacency_list self)))
  else ret tt.

(** [self.adjacency_list[from_vertex].append(to_vertex)] *)
Definition append_successor (from_vertex to_vertex : Vertex) : M Graph unit :=
  self <- get ;;
  match dict_get from_vertex (adjacency_list self) with
  | None => raise_KeyError
  | Some successors =>
      put (mkGraph (dict_set from_vertex (successors ++ [to_vertex])
                             (adjacency_list self)))
  end.

Definition add_edge (from_vertex to_vertex : Vertex) : M Graph unit :=
  (self <- get ;;
   if negb (dict_mem from_vertex (adjacency_list self))
   then add_vertex from_vertex else ret tt) ;;;
  (self <- get ;;
   if negb (dict_mem to_vertex (adjacency_list self))
   then add_vertex to_vertex else ret tt) ;;;
  append_successor from_vertex to_vertex.

(** The activation record of one call of [topological_sort]: the object
    and the three locals its nested helper shares. *)
Record Activation : Type := mkActivation {
  self : Graph;
  visit_state : gmap string nat;
  topological_order : list Vertex;
  is_dag : bool
}.

Definition read_visit_state (vertex : Vertex) : M Activation nat :=
  λ a, match visit_state a !! vertex with
       | Some c => Ok (c, a)
       | None => KeyError
       end.

Definition write_visit_state (vertex : Vertex) (c : nat) : M Activation unit :=
  λ a, Ok (tt, mkActivation (self a) (<[vertex := c]> (visit_state a))
                            (topological_order a) (is_dag a)).

Definition write_is_dag (b : bool) : M Activation unit :=
  λ a, Ok (tt, mkActivation (self a) (visit_state a) (topological_order a) b).

(** [topological_order.insert(0, vertex)] *)
Definition insert_front (vertex : Vertex) : M Activation unit :=
  λ a, Ok (tt, mkActivation (self a) (visit_state a)
                            (vertex :: topological_order a) (is_dag a)).

(** [self.adjacency_list[vertex]] *)
Definition read_successors (vertex : Vertex) : M Activation (list Vertex) :=
  λ a, match dict_get vertex (adjacency_list (self a)) with
       | Some successors => Ok (successors, a)
       | None => KeyError
       end.

(** The nested [def dfs(vertex)]. A call takes one of the [depth] nested
    calls that the interpreter still allows; with none left it raises
    [RecursionError]. *)
Fixpoint dfs (depth : nat) (vertex : Vertex) : M Activation unit :=
  match depth with
  | 0 => raise_RecursionError
  | S depth' =>
      c <- read_visit_state vertex ;;
      if decide (c = 1) then write_is_dag false
      else
        c <- read_visit_state vertex ;;
        if decide (c = 2) then ret tt
        else
          write_visit_state vertex 1 ;;;
          (successors <- read_successors vertex ;;
           for_each successors (dfs depth')) ;;;
          write_visit_state vertex 2 ;;;
          insert_front vertex
  end.

(** [{vertex: 0 for vertex in self.adjacency_list}] *)
Definition fresh_visit_state (g : Graph) : gmap string nat :=
  foldl (λ m vertex, <[vertex := 0]> m) ∅ (dict_keys (adjacency_list g)).

Definition enter (g : Graph) : Activation := mkActivation g (fresh_visit_state g) [] true.

(** The loop that runs [dfs] on every vertex still unvisited. *)
Definition traverse (depth : nat) : M Activation unit :=
  a <- get ;;
  for_each (dict_keys (adjacency_list (self a)))
    (λ vertex,
       c <- read_visit_state vertex ;;
       if decide (c = 0) then dfs depth vertex else ret tt).

(** The two [return] statements. *)
Definition result_of (a : Activation) : list Vertex :=
  if negb (is_dag a) then [] else topological_order a.

(** [depth] is the number of nested calls of [dfs] that the recursion
    limit of the interpreter allows at the time of the call. *)
Definition topological_sort (depth : nat) : M Graph (list Vertex) :=
  λ g, match traverse depth (enter g) with
       | Ok (_, a) => Ok (result_of a, self a)
       | KeyError => KeyError
       | RecursionError => RecursionError
       end.

(** The dict literal bound to [prerequisites] in [build_cs_major_graph]:
    each course with the courses it requires. *)
Definition prerequisites : list (Vertex * list Vertex) := [
  ("CS 1411", []);
  ("MATH 1451", []);
  ("ENGL 1301", []);
  ("CS 1412", ["CS 1411"]);
  ("MATH 1452", ["MATH 1451"]);
  ("PHYS 1408", ["MATH 1451"]);
  ("ENGL 1302", ["ENGL 1301"]);
  ("CS 2413", ["CS 1412"]);
  ("CS 1382", ["CS 1411"]);
  ("ECE 2372", ["MATH 1451"]);
  ("MATH 2450", ["MATH 1452"]);
  ("PHYS 2401", ["PHYS 1408"]);
  ("CS 2350", ["CS 1412"; "ECE 2372"]);
  ("CS 2365", ["CS 2413"]);
  ("ENGR 2392", []);
  ("POLS 1301", []);
  ("MATH 2360", ["MATH 1452"]);
  ("ENGL 2311", ["ENGL 1301"; "ENGL 1302"]);
  ("CS 3361", ["CS 2413"]);
  ("CS 3364", ["CS 2413"; "CS 1382"; "MATH 2360"]);
  ("MATH 3342", ["MATH 2450"]);
  ("POLS 2306", []);
  ("CS 3365", ["CS 2365"; "CS 2413"; "MATH 3342"]);
  ("CS 3375", ["CS 2350"]);
  ("CS 3383", ["CS 1382"]);
  ("CS 4365", ["CS 3365"]);
  ("CS 4352", ["CS 3364"; "CS 3375"]);
  ("CS 4354", ["CS 3364"]);
  ("CS 4366", ["CS 4365"])
]%string.

(** The two loops of [build_cs_major_graph] on the object bound to [graph],
    for the table bound to [prerequisites]: every course becomes a vertex,
    then every requirement becomes an edge from the required course. *)
Definition build_from (prerequisites : list (Vertex * list Vertex)) :
    M Graph unit :=
  for_each (dict_keys prerequisites) add_vertex ;;;
  for_each prerequisites
    (λ '(course, prereqs),
       for_each prereqs (λ prereq, add_edge prereq course)).

Definition build_cs_major_graph : outcome Graph :=
  match build_from prerequisites init with
  | Ok (_, graph) => Ok graph
  | KeyError => KeyError
  | RecursionError => RecursionError
  end.

(** The loop of [display_topological_order] from index [i] on. The test
    [i > 0 and i % courses_per_line == 0] looks at the remainder only when
    [i > 0]; the remainder of Python has the sign of the divisor, as
    [Z.modulo] has. *)
Fixpoint display_entries (i : nat) (order : list Vertex) (courses_per_line : Z)
    (stdout : string) : printed :=
  match order with
  | [] => Returned stdout
  | course :: rest =>
      let entry := format_02 (i + 1) +:+ ". " +:+ format_left_10 course in
      if decide (0 < i) then
        if decide (courses_per_line = 0%Z) then ZeroDivisionError stdout
        else
          let stdout :=
            if decide ((Z.of_nat i `mod` courses_per_line)%Z = 0%Z)
            then print "" newline stdout else stdout in
          display_entries (S i) rest courses_per_line (print entry " | " stdout)
      else display_entries (S i) rest courses_per_line (print entry " | " stdout)
  end.

(** The method does not use [self]; [courses_per_line] is [4] when the
    caller gives none. *)
Definition display_topological_order (order : list Vertex)
    (courses_per_line : Z) : printed :=
  if decide (order = []) then
    Returned (print "Error: The prerequisites contain a cycle. A valid topological ordering is impossible." newline "")
  else
    let stdout :=
      print (newline +:+ " Valid Course Sequence (Topological Order): ") newline "" in
    let stdout := print (repeat_string "=" 80) newline stdout in
    match display_entries 0 order courses_per_line stdout with
    | ZeroDivisionError stdout => ZeroDivisionError stdout
    | Returned stdout =>
        let stdout := print (newline +:+ repeat_string "=" 80) newline stdout in
        Returned (print ("(This represents one possible sequence, as multiple valid orderings may exist.)" +:+ newline) newline stdout)
    end.

End Refined.

(** ** The class of [Reorganized_Project2.py] *)

Module Reorganized.

Record Graph : Type := mkGraph {
  adjacency_list : list (Vertex * list Vertex)
}.

Definition init : Graph := mkGraph [].

Definition add_vertex (vertex : Vertex) : M Graph unit :=
  self <- get ;;
  if negb (dict_mem vertex (adjacency_list self))
  then put (mkGraph (dict_set vertex [] (adjacency_list self)))
  else ret tt.

(** [self.adjacency_list[u].append(v)] *)
Definition append_successor (u v : Vertex) : M Graph unit :=
  self <- get ;;
  match dict_get u (adjacency_list self) with
  | None => raise_KeyError
  | Some successors =>
      put (mkGraph (dict_set u (successors ++ [v]) (adjacency_list self)))
  end.

(** In the class body a string literal that spells the former signature
    stands before this method; as a statement it does nothing. *)
Definition add_edge (u v : Vertex) : M Graph unit :=
  (self <- get ;;
   if negb (dict_mem u (adjacency_list self)) then add_vertex u else ret tt) ;;;
  (self <- get ;;
   if negb (dict_mem v (adjacency_list self)) then add_vertex v else ret tt) ;;;
  append_successor u v.

Record Activation : Type := mkActivation {
  self : Graph;
  visit_state : gmap string nat;
  topological_order : list Vertex;
  is_dag : bool
}.

Definition read_visit_state (vertex : Vertex) : M Activation nat :=
  λ a, match visit_state a !! vertex with
       | Some c => Ok (c, a)
       | None => KeyError
       end.

Definition write_visit_state (vertex : Vertex) (c : nat) : M Activation unit :=
  λ a, Ok (tt, mkActivation (self a) (<[vertex := c]> (visit_state a))
                            (topological_order a) (is_dag a)).

Definition write_is_dag (b : bool) : M Activation unit :=
  λ a, Ok (tt, mkActivation (self a) (visit_state a) (topological_order a) b).

Definition insert_front (vertex : Vertex) : M Activation unit :=
  λ a, Ok (tt, mkActivation (self a) (visit_state a)
                            (vertex :: topological_order a) (is_dag a)).

Definition read_successors (vertex : Vertex) : M Activation (list Vertex) :=
  λ a, match dict_get vertex (adjacency_list (self a)) with
       | Some successors => Ok (successors, a)
       | None => KeyError
       end.

(** The nested [def dfs(vertex)]. A call takes one of the [depth] nested
    calls that the interpreter still allows; with none left it raises
    [RecursionError]. *)
Fixpoint dfs (depth : nat) (vertex : Vertex) : M Activation unit :=
  match depth with
  | 0 => raise_RecursionError
  | S depth' =>
      c <- read_visit_state vertex ;;
      if decide (c = 1) then write_is_dag false
      else
        c <- read_visit_state vertex ;;
        if decide (c = 2) then ret tt
        else
          write_visit_state vertex 1 ;;;
          (successors <- read_successors vertex ;;
           for_each successors (dfs depth')) ;;;
          write_visit_state vertex 2 ;;;
          insert_front vertex
  end.

Definition fresh_visit_state (g : Graph) : gmap string nat :=
  foldl (λ m vertex, <[vertex := 0]> m) ∅ (dict_keys (adjacency_list g)).

Definition enter (g : Graph) : Activation :=
  mkActivation g (fresh_visit_state g) [] true.

Definition traverse (depth : nat) : M Activation unit :=
  a <- get ;;
  for_each (dict_keys (adjacency_list (self a)))
    (λ vertex,
       c <- read_visit_state vertex ;;
       if decide (c = 0) then dfs depth vertex else ret tt).

Definition result_of (a : Activation) : list Vertex :=
  if negb (is_dag a) then [] else topological_order a.

(** [depth] is the number of nested calls of [dfs] that the recursion
    limit of the interpreter allows at the time of the call. *)
Definition topological_sort (depth : nat) : M Graph (list Vertex) :=
  λ g, match traverse depth (enter g) with
       | Ok (_, a) => Ok (result_of a, self a)
       | KeyError => KeyError
       | RecursionError => RecursionError
       end.

(** The dict literal bound to [prerequisites] in [build_cs_major_graph]:
    each course with the courses it requires. *)
Definition prerequisites : list (Vertex * list Vertex) := [
  ("CS 1411", []);
  ("MATH 1451", []);
  ("ENGL 1301", []);
  ("CS 1412", ["CS 1411"]);
  ("MATH 1452", ["MATH 1451"]);
  ("PHYS 1408", ["MATH 1451"]);
  ("ENGL 1302", ["ENGL 1301"]);
  ("CS 2413", ["CS 1412"]);
  ("CS 1382", ["CS 1411"]);
  ("ECE 2372", ["MATH 1451"]);
  ("MATH 2450", ["MATH 1452"]);
  ("PHYS 2401", ["PHYS 1408"]);
  ("CS 2350", ["CS 1412"; "ECE 2372"]);
  ("CS 2365", ["CS 2413"]);
  ("ENGR 2392", []);
  ("POLS 1301", []);
  ("MATH 2360", ["MATH 1452"]);
  ("ENGL 2311", ["ENGL 1301"; "ENGL 1302"]);
  ("CS 3361", ["CS 2413"]);
  ("CS 3364", ["CS 2413"; "CS 1382"; "MATH 2360"]);
  ("MATH 3342", ["MATH 2450"]);
  ("POLS 2306", []);
  ("CS 3365", ["CS 2365"; "CS 2413"; "MATH 3342"]);
  ("CS 3375", ["CS 2350"]);
  ("CS 3383", ["CS 1382"]);
  ("CS 4365", ["CS 3365"]);
  ("CS 4352", ["CS 3364"; "CS 3375"]);
  ("CS 4354", ["CS 3364"]);
  ("CS 4366", ["CS 4365"])
]%string.

(** The two loops of [build_cs_major_graph] on the object bound to [graph],
    for the table bound to [prerequisites]: every course becomes a vertex,
    then every requirement becomes an edge from the required course. *)
Definition build_from (prerequisites : list (Vertex * list Vertex)) :
    M Graph unit :=
  for_each (dict_keys prerequisites) add_vertex ;;;
  for_each prerequisites
    (λ '(course, prereqs),
       for_each prereqs (λ prereq, add_edge prereq course)).

Definition build_cs_major_graph : outcome Graph :=
  match build_from prerequisites init with
  | Ok (_, graph) => Ok graph
  | KeyError => KeyError
  | RecursionError => RecursionError
  end.

(** The loop of [display_topological_order] from index [i] on. The test
    [i > 0 and i % courses_per_line == 0] looks at the remainder only when
    [i > 0]; the remainder of Python has the sign of the divisor, as
    [Z.modulo] has. *)
Fixpoint display_entries (i : nat) (order : list Vertex) (courses_per_line : Z)
    (stdout : string) : printed :=
  match order with
  | [] => Returned stdout
  | course :: rest =>
      let entry := format_02 (i + 1) +:+ ". " +:+ format_left_10 course in
      if decide (0 < i) then
        if decide (courses_per_line = 0%Z) then ZeroDivisionError stdout
        else
          let stdout :=
            if decide ((Z.of_nat i `mod` courses_per_line)%Z = 0%Z)
            then print "" newline stdout else stdout in
          display_entries (S i) rest courses_per_line (print entry " | " stdout)
      else display_entries (S i) rest courses_per_line (print entry " | " stdout)
  end.

(** The method does not use [self]; [courses_per_line] is [4] when the
    caller gives none. *)
Definition display_topological_order (order : list Vertex)
    (courses_per_line : Z) : printed :=
  if decide (order = []) then
    Returned (print "Error: The prerequisites contain a cycle. A valid topological ordering is impossible." newline "")
  else
    let stdout :=
      print (newline +:+ " Valid Course Sequence (Topological Order): ") newline "" in
    let stdout := print (repeat_string "=" 80) newline stdout in
    match display_entries 0 order courses_per_line stdout with
    | ZeroDivisionError stdout => ZeroDivisionError stdout
    | Returned stdout =>
        let stdout := print (newline +:+ repeat_string "=" 80) newline stdout in
        Returned (print ("(This represents one of many possible orderings.)" +:+ newline) newline stdout)
    end.

End Reorganized.

(** ** Graphs as the class builds them *)

Import Refined.

(** The successors stored for [u] contain [v] (once or more). *)
Definition edge (g : Graph) (u v : Vertex) : Prop :=
  ∃ successors, dict_get u (adjacency_list g) = Some successors ∧ v ∈ successors.

Definition vertices (g : Graph) : list Vertex := dict_keys (adjacency_list g).

(** Every vertex of a successor list is a key. *)
Definition closed (g : Graph) : Prop := ∀ u v, edge g u v → v ∈ vertices g.

Record well_formed (g : Graph) : Prop := {
  wf_keys : NoDup (vertices g);
  wf_closed : closed g
}.

(** A directed cycle: a path of one edge or more from a vertex to itself. *)
Definition has_cycle (g : Graph) : Prop := ∃ u, tc (edge g) u u.

Inductive call : Type :=
  | AddVertex (vertex : Vertex)
  | AddEdge (from_vertex to_vertex : Vertex).

Definition perform (c : call) : M Graph unit :=
  match c with
  | AddVertex vertex => add_vertex vertex
  | AddEdge from_vertex to_vertex => add_edge from_vertex to_vertex
  end.

(** [built g]: some sequence of calls on a new object leaves it as [g]. *)
Definition built (g : Graph) : Prop :=
  ∃ calls, for_each calls perform init = Ok (tt, g).

(** The activation at the end of the traversal loop, before the returns. *)
Definition final (depth : nat) (g : Graph) : outcome (unit * Activation) :=
  traverse depth (enter g).

(** The call took the last [return]: no cycle was flagged. *)
Definition returns_sequence (depth : nat) (g : Graph) (order : list Vertex) :
    Prop :=
  ∃ a, final depth g = Ok (tt, a) ∧ is_dag a = true ∧
       topological_order a = order.

(** The call took the [return []] of a flagged cycle. *)
Definition returns_failure (depth : nat) (g : Graph) : Prop :=
  ∃ a, final depth g = Ok (tt, a) ∧ is_dag a = false.

(** A vertex that [dfs] would still process: neither in progress nor done. *)
Definition unvisited (m : gmap string nat) (v : Vertex) : Prop :=
  ∃ c, m !! v = Some c ∧ c ≠ 1 ∧ c ≠ 2.

(** What a completed [dfs] call may have changed. *)
Record extends (a a' : Activation) : Prop := {
  ext_self : self a' = self a;
  ext_state : ∀ v, visit_state a' !! v = visit_state a !! v ∨
                   (visit_state a' !! v = Some 2 ∧ unvisited (visit_state a) v);
  ext_order : ∃ new, topological_order a' = new ++ topological_order a;
  ext_dag : is_dag a' = true → is_dag a = true
}.

(** The invariant of the traversal of graph [g]. *)
Record traversal_inv (g : Graph) (a : Activation) : Prop := {
  inv_self : self a = g;
  inv_dom : ∀ v, is_Some (visit_state a !! v) ↔ v ∈ vertices g;
  inv_range : ∀ v c, visit_state a !! v = Some c → c ≤ 2;
  inv_done : ∀ v, visit_state a !! v = Some 2 ↔ v ∈ topological_order a;
  inv_once : NoDup (topological_order a);
  inv_sorted : is_dag a = true →
    ∀ l1 u l2, topological_order a = l1 ++ u :: l2 →
    ∀ v, edge g u v → v ∈ l2
}.

(** ** Auxiliary states, example graphs and the side-by-side run *)

(** The activation after [visit_state[v] = c]. *)
Definition marked (v : Vertex) (c : nat) (a : Activation) : Activation :=
  mkActivation (self a) (<[v := c]> (visit_state a)) (topological_order a) (is_dag a).

(** The activation after [is_dag = False]. *)
Definition flagged (a : Activation) : Activation :=
  mkActivation (self a) (visit_state a) (topological_order a) false.

(** The activation after the last two statements of [dfs]. *)
Definition finished (v : Vertex) (a : Activation) : Activation :=
  mkActivation (self a) (<[v := 2]> (visit_state a)) (v :: topological_order a) (is_dag a).

(** The body of the loop of [topological_sort]. *)
Definition visit (n : nat) (vertex : Vertex) : M Activation unit :=
  c <- read_visit_state vertex ;;
  if decide (c = 0) then dfs n vertex else ret tt.

(** The dictionary after [add_vertex]. *)
Definition ensured (v : Vertex) (d : list (Vertex * list Vertex)) :
    list (Vertex * list Vertex) :=
  if decide (v ∈ dict_keys d) then d else d ++ [(v, [])].

(** The successors stored for a vertex, none if it is not a key yet. *)
Definition successors_of (u : Vertex) (g : Graph) : list Vertex :=
  default [] (dict_get u (adjacency_list g)).

(** The first scenario of the test harness: [A -> B -> C]. *)
Definition chain : Graph := mkGraph [("A", ["B"]); ("B", ["C"]); ("C", [])]%string.

(** Two vertices on a cycle: [A -> B -> A]. *)
Definition two_cycle : Graph := mkGraph [("A", ["B"]); ("B", ["A"])]%string.

(** One call on a graph object, with what it returns to the caller, under
    an interpreter that allows [depth] nested calls of [dfs]. *)
Inductive request : Type :=
  | CallAddVertex (vertex : Vertex)
  | CallAddEdge (from_vertex to_vertex : Vertex)
  | CallTopologicalSort.

Definition serve_refined (depth : nat) (r : request) :
    M Refined.Graph (option (list Vertex)) :=
  match r with
  | CallAddVertex vertex => Refined.add_vertex vertex ;;; ret None
  | CallAddEdge u v => Refined.add_edge u v ;;; ret None
  | CallTopologicalSort =>
      order <- Refined.topological_sort depth ;; ret (Some order)
  end.

Definition serve_reorganized (depth : nat) (r : request) :
    M Reorganized.Graph (option (list Vertex)) :=
  match r with
  | CallAddVertex vertex => Reorganized.add_vertex vertex ;;; ret None
  | CallAddEdge u v => Reorganized.add_edge u v ;;; ret None
  | CallTopologicalSort =>
      order <- Reorganized.topological_sort depth ;; ret (Some order)
  end.

(** A sequence of calls on one object, with the list of what they return. *)
Fixpoint session {S} (serve : request → M S (option (list Vertex)))
    (requests : list request) : M S (list (option (list Vertex))) :=
  match requests with
  | [] => ret []
  | r :: rest =>
      x <- serve r ;; xs <- session serve rest ;; ret (x :: xs)
  end.

(** The object of the second class with the same adjacency mapping. *)
Definition to_reorganized (g : Refined.Graph) : Reorganized.Graph :=
  Reorganized.mkGraph (Refined.adjacency_list g).

Definition to_reorganized_activation (a : Refined.Activation) :
    Reorganized.Activation :=
  Reorganized.mkActivation (to_reorganized (Refined.self a))
    (Refined.visit_state a) (Refined.topological_order a) (Refined.is_dag a).

Definition outcome_state {A S S'} (f : S → S') (o : outcome (A * S)) :
    outcome (A * S') :=
  match o with
  | Ok (a, s) => Ok (a, f s)
  | KeyError => KeyError
  | RecursionError => RecursionError
  end.

(** [c'] does on the image of a state what [c] does on the state. *)
Definition simulates {A S S'} (f : S → S') (c : M S A) (c' : M S' A) : Prop :=
  ∀ s, c' (f s) = outcome_state f (c s).

(** ** Further notions for the properties of the code *)

(** What holds of an activation of [topological_sort] on any adjacency
    mapping [g], closed or not: the marked vertices are keys, and the
    successors of a finished vertex were all found among the keys. *)
Record explored (g : Graph) (a : Activation) : Prop := {
  exp_self : self a = g;
  exp_dom : ∀ v, is_Some (visit_state a !! v) → v ∈ vertices g;
  exp_range : ∀ v c, visit_state a !! v = Some c → c ≤ 2;
  exp_done : ∀ u, visit_state a !! u = Some 2 →
             ∀ v, edge g u v → v ∈ vertices g
}.

(** A mapping made by hand, with a successor that is no key. *)
Definition dangling : Graph := mkGraph [("A", ["B"])]%string.

(** The vertices a call names, in the order in which it makes them keys. *)
Definition mentions (c : call) : list Vertex :=
  match c with
  | AddVertex vertex => [vertex]
  | AddEdge from_vertex to_vertex => [from_vertex; to_vertex]
  end.

(** A list of keys with [v] put at its end unless it holds [v] already. *)
Definition note (keys : list Vertex) (v : Vertex) : list Vertex :=
  if decide (v ∈ keys) then keys else keys ++ [v].

(** The targets of the [add_edge] calls that start at [u], in call order. *)
Fixpoint targets (u : Vertex) (calls : list call) : list Vertex :=
  match calls with
  | [] => []
  | AddVertex _ :: rest => targets u rest
  | AddEdge from_vertex to_vertex :: rest =>
      if decide (from_vertex = u) then to_vertex :: targets u rest
      else targets u rest
  end.

(** Three vertices and no edge. *)
Definition isolated : Graph := mkGraph [("A", []); ("B", []); ("C", [])]%string.

(** The calls that [build_cs_major_graph] makes for a table. *)
Definition calls_of_table (table : list (Vertex * list Vertex)) : list call :=
  (AddVertex <$> dict_keys table) ++
  (table ≫= λ '(course, prereqs), (λ prereq, AddEdge prereq course) <$> prereqs).

(** The graph that [build_cs_major_graph] returns and the sequence that
    [topological_sort] returns for it when the interpreter allows 1000
    nested calls. *)
Definition cs_graph : Graph :=
  Eval vm_compute in
    match build_cs_major_graph with Ok graph => graph | _ => init end.

Definition cs_order : list Vertex :=
  Eval vm_compute in
    match topological_sort 1000 cs_graph with
    | Ok (order, _) => order
    | _ => []
    end.

(** The only text that [display_topological_order] prints for an empty
    [order]. *)
Definition cycle_report : string :=
  "Error: The prerequisites contain a cycle. A valid topological ordering is impossible." +:+ newline.

(** The text begins with a line feed. *)
Definition starts_with_newline (text : string) : Prop :=
  match text with
  | String c _ => c = "010"%char
  | EmptyString => False
  end.

(** One entry of the layout as it is printed: number, code, separator. *)
Definition entry_text (i : nat) (course : Vertex) : string :=
  (format_02 (i + 1) +:+ ". " +:+ format_left_10 course) +:+ " | ".

(** The entries of [order], the first one with index [i]. *)
Fixpoint numbered (i : nat) (order : list Vertex) : list string :=
  match order with
  | [] => []
  | course :: rest => entry_text i course :: numbered (S i) rest
  end.

(** A list cut into rows of [k] elements; the last row may be shorter. *)
Fixpoint rows_within {A} (fuel k : nat) (l : list A) : list (list A) :=
  match fuel, l with
  | S fuel', _ :: _ => take k l :: rows_within fuel' k (drop k l)
  | _, _ => []
  end.

Definition rows {A} (k : nat) (l : list A) : list (list A) :=
  rows_within (length l) k l.

(** The texts of a list, one after the other. *)
Definition cat (texts : list string) : string := foldr String.append "" texts.

(** What the loop of [display_topological_order] prints from index [i] on,
    for a row length [k]. *)
Fixpoint body (k i : nat) (order : list Vertex) : string :=
  match order with
  | [] => ""
  | course :: rest =>
      (if decide (0 < i ∧ i mod k = 0) then newline else "")
      +:+ entry_text i course +:+ body k (S i) rest
  end.

(** The two lines printed before the entries. *)
Definition heading : string :=
  newline +:+ " Valid Course Sequence (Topological Order): " +:+ newline
  +:+ repeat_string "=" 80 +:+ newline.

(** The lines printed after the entries, in [Project2_Refined.py] and in
    [Reorganized_Project2.py]. *)
Definition closing_refined : string :=
  newline +:+ repeat_string "=" 80 +:+ newline
  +:+ "(This represents one possible sequence, as multiple valid orderings may exist.)"
  +:+ newline +:+ newline.

Definition closing_reorganized : string :=
  newline +:+ repeat_string "=" 80 +:+ newline
  +:+ "(This represents one of many possible orderings.)"
  +:+ newline +:+ newline.

(** ** Dictionaries *)

Section dict_lemmas.
Context {V : Type}.
Implicit Types (d : list (Vertex * V)) (k : Vertex) (v : V).

Lemma dict_get_is_Some k d : is_Some (dict_get k d) ↔ k ∈ dict_keys d.
Proof.
  unfold dict_keys. induction d as [|[k' v'] d IH]; simpl.
  - split; [intros [? ?]; discriminate | intros ?%elem_of_nil; done].
  - rewrite elem_of_cons. destruct (decide (k = k')) as [->|Hne].
    + split; eauto.
    + rewrite IH. split; [by right|]. by intros [?|?].
Qed.

Lemma dict_get_None k d : dict_get k d = None ↔ k ∉ dict_keys d.
Proof. rewrite <- dict_get_is_Some, eq_None_not_Some. done. Qed.

Lemma dict_mem_true k d : dict_mem k d = true ↔ k ∈ dict_keys d.
Proof.
  unfold dict_mem. rewrite bool_decide_eq_true. apply dict_get_is_Some.
Qed.

Lemma dict_mem_false k d : dict_mem k d = false ↔ k ∉ dict_keys d.
Proof.
  unfold dict_mem. rewrite bool_decide_eq_false, dict_get_is_Some. done.
Qed.

Lemma dict_get_set k k' v d :
  dict_get k' (dict_set k v d) = if decide (k' = k) then Some v else dict_get k' d.
Proof.
  induction d as [|[k0 v0] d IH]; simpl.
  - destruct (decide (k' = k)); done.
  - destruct (decide (k = k0)) as [->|Hne]; simpl.
    + destruct (decide (k' = k0)); done.
    + destruct (decide (k' = k0)) as [->|Hne'].
      * destruct (decide (k0 = k)); congruence.
      * done.
Qed.

Lemma dict_set_present k v d :
  k ∈ dict_keys d → dict_keys (dict_set k v d) = dict_keys d.
Proof.
  unfold dict_keys. induction d as [|[k0 v0] d IH]; simpl.
  - intros ?%elem_of_nil. done.
  - rewrite elem_of_cons. destruct (decide (k = k0)) as [->|Hne]; simpl.
    + done.
    + intros [?|Hin]; [done|]. f_equal. by apply IH.
Qed.

Lemma dict_set_absent k v d : k ∉ dict_keys d → dict_set k v d = d ++ [(k, v)].
Proof.
  unfold dict_keys. induction d as [|[k0 v0] d IH]; simpl; [done|].
  rewrite not_elem_of_cons. intros [Hne Hnin].
  destruct (decide (k = k0)); [done|]. by rewrite IH.
Qed.
End dict_lemmas.

Lemma index_app_middle x l1 l2 : x ∉ l1 → index x (l1 ++ x :: l2) = Some (length l1).
Proof.
  induction l1 as [|y l1 IH]; simpl.
  - intros _. by rewrite decide_True.
  - rewrite not_elem_of_cons. intros [Hne Hnin].
    rewrite decide_False by done. by rewrite IH.
Qed.

(** ** Running the monad *)

Lemma bind_Ok {S A B} (c : M S A) (k : A → M S B) s b s' :
  bind c k s = Ok (b, s') ↔ ∃ a s1, c s = Ok (a, s1) ∧ k a s1 = Ok (b, s').
Proof.
  unfold bind. destruct (c s) as [[a s1]| |]; split.
  - eauto.
  - intros (? & ? & [= <- <-] & ?). done.
  - done.
  - intros (? & ? & ? & ?). done.
  - done.
  - intros (? & ? & ? & ?). done.
Qed.

Lemma bind_ext {S A B} (c c' : M S A) (k k' : A → M S B) s :
  c s = c' s → (∀ a s1, k a s1 = k' a s1) → bind c k s = bind c' k' s.
Proof.
  intros Hc Hk. unfold bind. rewrite Hc. by destruct (c' s) as [[a s1]| |].
Qed.

(** A loop whose body keeps a preorder between states keeps it as a whole. *)
Lemma for_each_preorder {S A} (R : relation S) `{!PreOrder R}
    (l : list A) (body : A → M S unit) :
  (∀ x s s', x ∈ l → body x s = Ok (tt, s') → R s s') →
  ∀ s s', for_each l body s = Ok (tt, s') → R s s'.
Proof.
  induction l as [|x l IH]; simpl; intros Hbody s s'.
  - intros [= <-]. done.
  - intros ([] & s1 & H1 & H2)%bind_Ok.
    transitivity s1.
    + eapply Hbody; [left|done].
    + eapply IH; [|done]. intros. eapply Hbody; [by right|done].
Qed.

(** ** One call of [dfs] *)

Lemma dfs_unfold n v a :
  dfs (S n) v a =
    match visit_state a !! v with
    | None => KeyError
    | Some c =>
        if decide (c = 1) then Ok (tt, flagged a)
        else if decide (c = 2) then Ok (tt, a)
        else match dict_get v (adjacency_list (self a)) with
             | None => KeyError
             | Some successors =>
                 match for_each successors (dfs n) (marked v 1 a) with
                 | Ok (_, a') => Ok (tt, finished v a')
                 | KeyError => KeyError
                 | RecursionError => RecursionError
                 end
             end
    end.
Proof.
  simpl. unfold bind, read_visit_state.
  destruct (visit_state a !! v) as [c|] eqn:Hc; [|done].
  destruct (decide (c = 1)); [reflexivity|]. rewrite Hc.
  destruct (decide (c = 2)); [reflexivity|].
  unfold write_visit_state, read_successors. simpl.
  fold (marked v 1 a).
  destruct (dict_get v (adjacency_list (self a))) as [successors|]; [|done].
  destruct (for_each successors (dfs n) (marked v 1 a)) as [[[] a']| |];
    reflexivity.
Qed.

Global Instance extends_preorder : PreOrder extends.
Proof.
  split.
  - intros a. split; [done|by left|by exists []|done].
  - intros a1 a2 a3 [Hs1 Hv1 [n1 Ho1] Hd1] [Hs2 Hv2 [n2 Ho2] Hd2]. split.
    + congruence.
    + intros v. destruct (Hv2 v) as [Heq|[Hb Hu]].
      * rewrite Heq. apply Hv1.
      * right. split; [done|].
        destruct (Hv1 v) as [Heq|[Hb' (c & Hc & _ & _)]].
        -- unfold unvisited. by rewrite <- Heq.
        -- destruct Hu as (c' & Hc' & _ & Hne). congruence.
    + exists (n2 ++ n1). rewrite Ho2, Ho1. by rewrite app_assoc.
    + auto.
Qed.

Lemma extends_in_progress a a' v :
  extends a a' → visit_state a' !! v = Some 1 ↔ visit_state a !! v = Some 1.
Proof.
  intros [_ Hv _ _]. destruct (Hv v) as [->|[Hb (c & Hc & Hn1 & _)]]; [done|].
  rewrite Hb, Hc. split; [done|]. intros [= ->]. done.
Qed.

Lemma extends_done a a' v :
  extends a a' → visit_state a !! v = Some 2 → visit_state a' !! v = Some 2.
Proof.
  intros [_ Hv _ _] H. destruct (Hv v) as [->|[Hb _]]; done.
Qed.

Lemma extends_unvisited a a' v :
  extends a a' → unvisited (visit_state a') v → unvisited (visit_state a) v.
Proof.
  intros [_ Hv _ _] Hu. destruct (Hv v) as [Heq|[Hb Hu']]; [|done].
  unfold unvisited. by rewrite <- Heq.
Qed.

(** Whatever a completed call of [dfs] did, it left the object alone, only
    turned unvisited vertices into finished ones, only added to the front of
    the output, and never cleared a flagged cycle. *)
Lemma dfs_extends n : ∀ v a a', dfs n v a = Ok (tt, a') → extends a a'.
Proof.
  induction n as [|n IH]; intros v a a'; [done|].
  rewrite dfs_unfold.
  destruct (visit_state a !! v) as [c|] eqn:Hc; [|done].
  destruct (decide (c = 1)) as [->|Hn1].
  { intros [= <-]. split; [done|by left|by exists []|done]. }
  destruct (decide (c = 2)) as [->|Hn2].
  { intros [= <-]. done. }
  destruct (dict_get v (adjacency_list (self a))) as [successors|]; [|done].
  destruct (for_each successors (dfs n) (marked v 1 a)) as [[[] ak]| |] eqn:Hloop;
    [|done..].
  intros [= <-].
  assert (Hext : extends (marked v 1 a) ak).
  { eapply (for_each_preorder extends); [|done]. intros. by eapply IH. }
  destruct Hext as [Hs Hv [new Ho] Hd]. split; simpl in *.
  - done.
  - intros u. destruct (decide (u = v)) as [->|Hne].
    + right. rewrite lookup_insert_eq. split; [done|]. by exists c.
    + rewrite lookup_insert_ne by done.
      destruct (Hv u) as [Heq|[Hb (c' & Hc' & ? & ?)]].
      * left. rewrite Heq. by rewrite lookup_insert_ne.
      * right. split; [done|]. exists c'.
        rewrite lookup_insert_ne in Hc' by done. done.
  - exists (v :: new). by rewrite Ho.
  - done.
Qed.

(** ** The depth of the recursion *)

(** A loop that raises no [RecursionError] does the same with a body that
    agrees with its own wherever that one raises none. *)
Lemma for_each_agree {S A} (f f' : A → M S unit) (l : list A) :
  (∀ x s, f x s ≠ RecursionError → f' x s = f x s) →
  ∀ s, for_each l f s ≠ RecursionError → for_each l f' s = for_each l f s.
Proof.
  intros Hf. induction l as [|x l IH]; intros s; simpl; [done|].
  unfold bind. destruct (f x s) as [[[] s1]| |] eqn:Hx.
  - intros Hl. rewrite Hf, Hx by (by rewrite Hx). by apply IH.
  - intros _. rewrite Hf, Hx by (by rewrite Hx). done.
  - done.
Qed.

Lemma dfs_budget_S n : ∀ v a, dfs n v a ≠ RecursionError → dfs (S n) v a = dfs n v a.
Proof.
  induction n as [|n IH]; intros v a; [done|].
  rewrite (dfs_unfold (S n)), (dfs_unfold n).
  destruct (visit_state a !! v) as [c|]; [|done].
  destruct (decide (c = 1)); [done|].
  destruct (decide (c = 2)); [done|].
  destruct (dict_get v (adjacency_list (self a))) as [successors|]; [|done].
  intros Hne. rewrite (for_each_agree (dfs n) (dfs (S n))); [done|by apply IH|].
  intros Heq. by rewrite Heq in Hne.
Qed.

Lemma dfs_budget_add n k v a :
  dfs n v a ≠ RecursionError → dfs (n + k) v a = dfs n v a.
Proof.
  intros Hne. induction k as [|k IH].
  - by rewrite Nat.add_0_r.
  - rewrite Nat.add_succ_r, dfs_budget_S; [done|]. by rewrite IH.
Qed.

(** The nesting of [dfs] calls is bounded by the number of unvisited
    vertices: with a depth above it no [RecursionError] is raised. *)
Lemma dfs_within_budget n : ∀ (W : gset string) v a,
  (∀ u, unvisited (visit_state a) u → u ∈ W) → size W < n →
  dfs n v a ≠ RecursionError.
Proof.
  induction n as [|n IH]; intros W v a HW Hsize; [lia|].
  rewrite dfs_unfold.
  destruct (visit_state a !! v) as [c|] eqn:Hc; [|done].
  destruct (decide (c = 1)); [done|].
  destruct (decide (c = 2)); [done|].
  destruct (dict_get v (adjacency_list (self a))) as [successors|]; [|done].
  assert (Hv : v ∈ W) by (apply HW; by exists c).
  assert (Hsize' : size (W ∖ {[v]}) < n).
  { assert (size (W ∖ {[v]}) < size W); [|lia].
    apply subset_size, subset_difference_elem_of. done. }
  assert (Hloop : ∀ l a1,
    (∀ u, unvisited (visit_state a1) u → u ∈ W ∖ {[v]}) →
    for_each l (dfs n) a1 ≠ RecursionError).
  { induction l as [|x l IHl]; intros a1 HW1; simpl; [done|].
    unfold bind. destruct (dfs n x a1) as [[[] a2]| |] eqn:Hx.
    - apply IHl. intros u Hu. apply HW1.
      eapply extends_unvisited; [|done]. by eapply dfs_extends.
    - done.
    - exfalso. by eapply (IH (W ∖ {[v]}) x a1). }
  specialize (Hloop successors (marked v 1 a)).
  destruct (for_each successors (dfs n) (marked v 1 a)) as [[[] a']| |]; [done..|].
  exfalso. apply Hloop; [|done]. simpl.
  intros u (c' & Hc' & Hn1 & Hn2).
  destruct (decide (u = v)) as [->|Hne].
  - rewrite lookup_insert_eq in Hc'. congruence.
  - rewrite lookup_insert_ne in Hc' by done.
    apply elem_of_difference. split; [|set_solver].
    apply HW. by exists c'.
Qed.

(** ** The traversal invariant *)

Lemma fresh_visit_state_lookup g v :
  fresh_visit_state g !! v = if decide (v ∈ vertices g) then Some 0 else None.
Proof.
  unfold fresh_visit_state, vertices.
  generalize (dict_keys (adjacency_list g)). intros l.
  assert (H : ∀ m : gmap string nat,
    foldl (λ m vertex, <[vertex := 0]> m) m l !! v
    = if decide (v ∈ l) then Some 0 else m !! v).
  { induction l as [|x l IH]; intros m; cbn [foldl].
    - rewrite decide_False; [done|]. apply not_elem_of_nil.
    - rewrite IH. destruct (decide (v ∈ l)) as [Hin|Hnin].
      + rewrite decide_True; [done|]. by right.
      + destruct (decide (v = x)) as [->|Hne].
        * rewrite decide_True by left. apply lookup_insert_eq.
        * rewrite decide_False by (by intros [?|?]%elem_of_cons).
          by apply lookup_insert_ne. }
  rewrite H. by rewrite lookup_empty.
Qed.

Lemma edge_successors g u v successors :
  dict_get u (adjacency_list g) = Some successors → edge g u v ↔ v ∈ successors.
Proof.
  intros Hu. split.
  - intros (s & Hs & Hin). congruence.
  - intros Hin. by exists successors.
Qed.

Lemma edge_source g u v : edge g u v → u ∈ vertices g.
Proof.
  intros (s & Hs & _). apply dict_get_is_Some. by exists s.
Qed.

Section traversal.
Variable g : Graph.
Hypothesis g_closed : closed g.

Lemma inv_enter : traversal_inv g (enter g).
Proof.
  split; simpl.
  - done.
  - intros v. rewrite fresh_visit_state_lookup.
    destruct (decide (v ∈ vertices g)); split; try done.
  - intros v c. rewrite fresh_visit_state_lookup.
    destruct (decide (v ∈ vertices g)); [|done]. intros [= <-]. lia.
  - intros v. rewrite fresh_visit_state_lookup.
    destruct (decide (v ∈ vertices g)); split; try done.
    all: by intros ?%elem_of_nil.
  - apply NoDup_nil_2.
  - intros _ l1 u l2 Heq. by destruct l1.
Qed.

Lemma inv_flagged a : traversal_inv g a → traversal_inv g (flagged a).
Proof. intros [? ? ? ? ? ?]. split; simpl; done. Qed.

Lemma inv_marked a v :
  traversal_inv g a → visit_state a !! v = Some 0 →
  traversal_inv g (marked v 1 a).
Proof.
  intros [Hs Hdom Hrange Hdone Honce Hsorted] Hv. split; simpl; try done.
  - intros u. destruct (decide (u = v)) as [->|Hne].
    + rewrite lookup_insert_eq. rewrite <- Hdom, Hv. done.
    + by rewrite lookup_insert_ne.
  - intros u c. destruct (decide (u = v)) as [->|Hne].
    + rewrite lookup_insert_eq. intros [= <-]. lia.
    + rewrite lookup_insert_ne by done. apply Hrange.
  - intros u. destruct (decide (u = v)) as [->|Hne].
    + rewrite lookup_insert_eq. rewrite <- Hdone, Hv. done.
    + by rewrite lookup_insert_ne.
Qed.

Lemma inv_finished a v successors :
  traversal_inv g a → visit_state a !! v = Some 1 →
  dict_get v (adjacency_list g) = Some successors →
  (is_dag a = true → ∀ u, u ∈ successors → visit_state a !! u = Some 2) →
  traversal_inv g (finished v a).
Proof.
  intros [Hs Hdom Hrange Hdone Honce Hsorted] Hv Hsucc Hblack.
  split; simpl; try done.
  - intros u. destruct (decide (u = v)) as [->|Hne].
    + rewrite lookup_insert_eq. rewrite <- Hdom, Hv. done.
    + by rewrite lookup_insert_ne.
  - intros u c. destruct (decide (u = v)) as [->|Hne].
    + rewrite lookup_insert_eq. intros [= <-]. lia.
    + rewrite lookup_insert_ne by done. apply Hrange.
  - intros u. rewrite elem_of_cons. destruct (decide (u = v)) as [->|Hne].
    + rewrite lookup_insert_eq. split; [by left|done].
    + rewrite lookup_insert_ne by done. rewrite Hdone. split; [by right|].
      by intros [?|?].
  - constructor; [|done]. rewrite <- Hdone, Hv. done.
  - intros Hdag l1 u l2 Heq w Hedge. destruct l1 as [|x l1]; simpl in Heq.
    + injection Heq as <- <-. apply Hdone, Hblack; [done|].
      by apply (edge_successors g v w successors).
    + injection Heq as <- Heq. by eapply Hsorted.
Qed.

(** A call of [dfs] on a vertex of the graph that raises no
    [RecursionError] completes; it keeps the invariant and leaves the vertex finished
    unless it was in progress. *)
Lemma dfs_correct n : ∀ v a,
  traversal_inv g a → v ∈ vertices g → dfs n v a ≠ RecursionError →
  ∃ a', dfs n v a = Ok (tt, a') ∧ traversal_inv g a' ∧
        (visit_state a !! v ≠ Some 1 → visit_state a' !! v = Some 2) ∧
        (is_dag a' = true → visit_state a' !! v = Some 2).
Proof.
  induction n as [|n IH]; intros v a Hinv Hv; [done|].
  rewrite dfs_unfold.
  destruct (proj2 (inv_dom g a Hinv v) Hv) as [c Hc]. rewrite Hc.
  pose proof (inv_range g a Hinv v c Hc) as Hle.
  destruct (decide (c = 1)) as [->|Hn1].
  { intros _. exists (flagged a). split; [done|].
    split; [by apply inv_flagged|]. simpl. done. }
  destruct (decide (c = 2)) as [->|Hn2].
  { intros _. exists a. done. }
  assert (c = 0) as -> by lia.
  rewrite (inv_self g a Hinv).
  destruct (proj2 (dict_get_is_Some v (adjacency_list g)) Hv)
    as [successors Hsucc].
  rewrite Hsucc.
  assert (Hloop : ∀ l a1,
    traversal_inv g a1 → (∀ u, u ∈ l → u ∈ vertices g) →
    for_each l (dfs n) a1 ≠ RecursionError →
    ∃ ak, for_each l (dfs n) a1 = Ok (tt, ak) ∧ traversal_inv g ak ∧
          extends a1 ak ∧
          (is_dag ak = true → ∀ u, u ∈ l → visit_state ak !! u = Some 2)).
  { induction l as [|x l IHl]; intros a1 Hinv1 Hl; simpl.
    - intros _. exists a1. split_and!; try done.
      intros _ u ?%elem_of_nil. done.
    - unfold bind. intros Hne.
      destruct (IH x a1) as (a2 & Hx & Hinv2 & _ & Hpost2);
        [done|apply Hl; by left|by destruct (dfs n x a1)|].
      rewrite Hx in Hne |- *.
      destruct (IHl a2) as (ak & Hk & Hinvk & Hext & Hpostk);
        [done|intros; apply Hl; by right|done|].
      assert (Hext2 : extends a1 a2) by (by eapply dfs_extends).
      exists ak. split_and!; try done.
      + by transitivity a2.
      + intros Hdag u [->|Hin]%elem_of_cons; [|by apply Hpostk].
        eapply extends_done; [done|]. apply Hpost2. by eapply ext_dag. }
  intros Hne.
  destruct (Hloop successors (marked v 1 a)) as (ak & Hk & Hinvk & Hext & Hpostk).
  - by apply inv_marked.
  - intros u Hu. apply (g_closed v u). by exists successors.
  - by destruct (for_each successors (dfs n) (marked v 1 a)).
  - rewrite Hk. exists (finished v ak). split; [done|]. split.
    + apply (inv_finished ak v successors); try done.
      apply (extends_in_progress _ _ v Hext). simpl. apply lookup_insert_eq.
    + simpl. rewrite lookup_insert_eq. done.
Qed.
End traversal.

(** ** The loop over all vertices *)

Lemma size_list_to_set_le (l : list string) :
  size (list_to_set l : gset string) ≤ length l.
Proof.
  induction l as [|x l IH].
  - rewrite list_to_set_nil, size_empty. done.
  - rewrite list_to_set_cons, size_union_alt, size_singleton. simpl.
    assert (size (list_to_set l ∖ {[x]} : gset string) ≤ size (list_to_set l : gset string)).
    { apply subseteq_size, subseteq_difference_l. done. }
    lia.
Qed.

(** A depth above the number of keys covers every activation whose
    [visit_state] has only vertices of the graph as keys. *)
Lemma budget_covers depth g a v :
  length (adjacency_list g) < depth →
  (∀ u, is_Some (visit_state a !! u) → u ∈ vertices g) →
  dfs depth v a ≠ RecursionError.
Proof.
  intros Hdepth Hdom.
  apply (dfs_within_budget _ (list_to_set (vertices g))).
  - intros u (c & Hc & _). apply elem_of_list_to_set, Hdom. by exists c.
  - pose proof (size_list_to_set_le (vertices g)) as Hle.
    unfold vertices, dict_keys in *. rewrite length_fmap in Hle. lia.
Qed.

Lemma extends_keys a a' v :
  extends a a' → is_Some (visit_state a' !! v) → is_Some (visit_state a !! v).
Proof.
  intros [_ Hv _ _] Hsome. destruct (Hv v) as [<-|[_ (c & Hc & _)]]; [done|].
  by exists c.
Qed.

Lemma traverse_unfold n a :
  traverse n a = for_each (vertices (self a)) (visit n) a.
Proof. reflexivity. Qed.

Lemma visit_unfold n v a :
  visit n v a = match visit_state a !! v with
                | None => KeyError
                | Some c => if decide (c = 0) then dfs n v a else Ok (tt, a)
                end.
Proof.
  unfold visit, bind, read_visit_state.
  destruct (visit_state a !! v) as [c|]; [|done]. by destruct (decide (c = 0)).
Qed.

Lemma visit_extends n v a a' : visit n v a = Ok (tt, a') → extends a a'.
Proof.
  rewrite visit_unfold. destruct (visit_state a !! v) as [c|]; [|done].
  destruct (decide (c = 0)).
  - apply dfs_extends.
  - intros [= <-]. done.
Qed.

Lemma traverse_extends n a a' : traverse n a = Ok (tt, a') → extends a a'.
Proof.
  rewrite traverse_unfold.
  apply (for_each_preorder extends). intros x s s' _. apply visit_extends.
Qed.

(** With a depth above the number of keys the loop raises no
    [RecursionError], whatever the graph. *)
Lemma traverse_within_budget depth g :
  length (adjacency_list g) < depth →
  traverse depth (enter g) ≠ RecursionError.
Proof.
  intros Hdepth. rewrite traverse_unfold. cbn [self enter].
  assert (Hloop : ∀ l a,
    (∀ u, is_Some (visit_state a !! u) → u ∈ vertices g) →
    for_each l (visit depth) a ≠ RecursionError).
  { induction l as [|x l IHl]; intros a Hdom; cbn [for_each]; [done|].
    unfold bind at 1.
    destruct (visit depth x a) as [[[] a1]| |] eqn:Hx.
    - apply IHl. intros u Hu. apply Hdom.
      eapply extends_keys; [|done]. by eapply visit_extends.
    - done.
    - exfalso. revert Hx. rewrite visit_unfold.
      destruct (visit_state a !! x) as [c|]; [|done].
      destruct (decide (c = 0)); [|done]. by apply (budget_covers depth g). }
  apply Hloop. cbn [visit_state enter]. intros u. rewrite fresh_visit_state_lookup.
  destruct (decide (u ∈ vertices g)); [done|]. intros [? ?]. done.
Qed.

(** On a graph whose successor lists name only vertices of the graph, and
    with a depth above the number of keys, the loop completes, with every vertex finished and the invariant kept. *)
Lemma traverse_correct depth g :
  closed g → length (adjacency_list g) < depth →
  ∃ a, final depth g = Ok (tt, a) ∧ traversal_inv g a ∧
       ∀ v, v ∈ vertices g → visit_state a !! v = Some 2.
Proof.
  intros Hclosed Hdepth. unfold final. rewrite traverse_unfold. cbn [self enter].
  assert (Hloop : ∀ l a,
    traversal_inv g a → (∀ u, visit_state a !! u ≠ Some 1) →
    (∀ u, u ∈ l → u ∈ vertices g) →
    ∃ a', for_each l (visit depth) a = Ok (tt, a') ∧
          traversal_inv g a' ∧ extends a a' ∧
          ∀ u, u ∈ l → visit_state a' !! u = Some 2).
  { induction l as [|x l IHl]; intros a Hinv Hgrey Hl; cbn [for_each].
    - exists a. split_and!; try done. by intros u ?%elem_of_nil.
    - assert (Hx : ∃ a1,
        visit depth x a = Ok (tt, a1)
        ∧ traversal_inv g a1 ∧ visit_state a1 !! x = Some 2).
      { rewrite visit_unfold.
        destruct (proj2 (inv_dom g a Hinv x) (Hl x ltac:(left))) as [c Hc].
        rewrite Hc. destruct (decide (c = 0)) as [->|Hn0].
        - destruct (dfs_correct g Hclosed depth x a)
            as (a1 & H1 & Hinv1 & Hpost & _).
          + done.
          + apply Hl. by left.
          + apply (budget_covers depth g); [done|]. intros u. apply (inv_dom g a Hinv).
          + exists a1. split_and!; try done. apply Hpost. by rewrite Hc.
        - exists a. split_and!; try done.
          pose proof (inv_range g a Hinv x c Hc).
          pose proof (Hgrey x).
          assert (c = 2) as -> by (destruct (decide (c = 1)); [congruence | lia]).
          done. }
      destruct Hx as (a1 & H1 & Hinv1 & Hx).
      assert (Hext1 : extends a a1) by (by eapply visit_extends).
      destruct (IHl a1) as (a' & H' & Hinv' & Hext' & Hall).
      + done.
      + intros u. rewrite (extends_in_progress a a1 u Hext1). apply Hgrey.
      + intros. apply Hl. by right.
      + exists a'. unfold bind at 1. rewrite H1. split_and!; try done.
        * by transitivity a1.
        * intros u [->|Hin]%elem_of_cons; [|by apply Hall].
          by eapply extends_done. }
  destruct (Hloop (vertices g) (enter g)) as (a & Ha & Hinv & _ & Hall).
  - by apply inv_enter.
  - cbn [visit_state enter]. intros u. rewrite fresh_visit_state_lookup.
    by destruct (decide _).
  - done.
  - exists a. done.
Qed.

(** ** The mutators *)

Lemma dict_get_app {V} k (d1 d2 : list (Vertex * V)) :
  dict_get k (d1 ++ d2) =
    match dict_get k d1 with Some x => Some x | None => dict_get k d2 end.
Proof.
  induction d1 as [|[k' x] d1 IH]; simpl; [done|].
  by destruct (decide (k = k')).
Qed.

Lemma dict_keys_app {V} (d1 d2 : list (Vertex * V)) :
  dict_keys (d1 ++ d2) = dict_keys d1 ++ dict_keys d2.
Proof. unfold dict_keys. apply fmap_app. Qed.

Lemma ensured_keys v d :
  dict_keys (ensured v d) = dict_keys d ++ (if decide (v ∈ dict_keys d) then [] else [v]).
Proof.
  unfold ensured. destruct (decide (v ∈ dict_keys d)).
  - by rewrite app_nil_r.
  - by rewrite dict_keys_app.
Qed.

Lemma ensured_elem v d : v ∈ dict_keys (ensured v d).
Proof.
  rewrite ensured_keys. destruct (decide (v ∈ dict_keys d)).
  - by rewrite app_nil_r.
  - apply elem_of_app. right. by left.
Qed.

Lemma ensured_get v w d :
  dict_get w (ensured v d) =
    if decide (w ∈ dict_keys d) then dict_get w d
    else if decide (w = v) then Some [] else None.
Proof.
  unfold ensured. destruct (decide (v ∈ dict_keys d)) as [Hv|Hv].
  - destruct (decide (w ∈ dict_keys d)) as [Hw|Hw]; [done|].
    rewrite (proj2 (dict_get_None w d) Hw).
    destruct (decide (w = v)) as [->|]; done.
  - rewrite dict_get_app. simpl.
    destruct (decide (w ∈ dict_keys d)) as [Hw|Hw].
    + destruct (proj2 (dict_get_is_Some w d) Hw) as [x ->]. done.
    + rewrite (proj2 (dict_get_None w d) Hw). done.
Qed.

Lemma add_vertex_run v g :
  add_vertex v g = Ok (tt, mkGraph (ensured v (adjacency_list g))).
Proof.
  unfold add_vertex, bind, get, ensured.
  destruct (dict_mem v (adjacency_list g)) eqn:Hmem; simpl.
  - apply dict_mem_true in Hmem. rewrite decide_True by done. by destruct g.
  - apply dict_mem_false in Hmem. rewrite decide_False by done.
    unfold put. by rewrite dict_set_absent.
Qed.

(** The guarded call [if v not in self.adjacency_list: self.add_vertex(v)]
    does what the bare call does. *)
Lemma guarded_add_vertex v g :
  (self <- get ;;
   if negb (dict_mem v (adjacency_list self)) then add_vertex v else ret tt) g
  = add_vertex v g.
Proof.
  unfold bind at 1, get. destruct (dict_mem v (adjacency_list g)) eqn:Hmem; simpl.
  - unfold add_vertex, bind, get. by rewrite Hmem.
  - done.
Qed.

Lemma add_edge_steps u v g :
  add_edge u v g = (add_vertex u ;;; add_vertex v ;;; append_successor u v) g.
Proof.
  unfold add_edge.
  apply bind_ext; [apply guarded_add_vertex|]. intros _ g1.
  apply bind_ext; [apply guarded_add_vertex|done].
Qed.

Lemma add_edge_run u v g :
  add_edge u v g =
    Ok (tt, mkGraph (dict_set u (successors_of u g ++ [v])
                       (ensured v (ensured u (adjacency_list g))))).
Proof.
  rewrite add_edge_steps. unfold bind. rewrite !add_vertex_run. simpl.
  unfold append_successor, bind, get. simpl.
  assert (Hget : dict_get u (ensured v (ensured u (adjacency_list g)))
                 = Some (successors_of u g)).
  { rewrite ensured_get, decide_True by apply ensured_elem.
    rewrite ensured_get. unfold successors_of.
    destruct (decide (u ∈ dict_keys (adjacency_list g))) as [Hu|Hu].
    - destruct (proj2 (dict_get_is_Some u _) Hu) as [x ->]. done.
    - rewrite (proj2 (dict_get_None u _) Hu), decide_True by done. done. }
  rewrite Hget. done.
Qed.

Lemma add_edge_vertices u v g g' :
  add_edge u v g = Ok (tt, g') →
  vertices g' = vertices g ++ (if decide (u ∈ vertices g) then [] else [u])
                           ++ (if decide (v ∈ vertices g ∨ v = u) then [] else [v]).
Proof.
  rewrite add_edge_run. intros [= <-]. unfold vertices. simpl.
  rewrite dict_set_present.
  2:{ rewrite ensured_keys. apply elem_of_app. left. apply ensured_elem. }
  rewrite !ensured_keys, <- app_assoc. do 2 f_equal.
  destruct (decide (u ∈ dict_keys (adjacency_list g))) as [Hu|Hu].
  - rewrite app_nil_r.
    destruct (decide (v ∈ dict_keys (adjacency_list g))) as [Hv|Hv].
    + rewrite decide_True; [done|by left].
    + destruct (decide (v = u)) as [->|Hne]; [done|].
      rewrite decide_False; [done|]. by intros [?|?].
  - destruct (decide (v ∈ dict_keys (adjacency_list g))) as [Hv|Hv].
    + rewrite decide_True by (apply elem_of_app; by left).
      rewrite decide_True; [done|by left].
    + destruct (decide (v = u)) as [->|Hne].
      * rewrite decide_True by (apply elem_of_app; right; by left).
        rewrite decide_True; [done|by right].
      * rewrite decide_False.
        2:{ intros [?|[?|?%elem_of_nil]%elem_of_cons]%elem_of_app; done. }
        rewrite decide_False; [done|]. by intros [?|?].
Qed.

Lemma add_edge_source u v g g' :
  add_edge u v g = Ok (tt, g') →
  dict_get u (adjacency_list g') = Some (successors_of u g ++ [v]).
Proof.
  rewrite add_edge_run. intros [= <-]. simpl.
  rewrite dict_get_set. by rewrite decide_True.
Qed.

Lemma add_edge_others u v g g' w :
  add_edge u v g = Ok (tt, g') → w ≠ u →
  dict_get w (adjacency_list g') =
    if decide (w ∈ vertices g) then dict_get w (adjacency_list g)
    else if decide (w = v) then Some [] else None.
Proof.
  rewrite add_edge_run. intros [= <-] Hne. simpl.
  rewrite dict_get_set, decide_False by done.
  rewrite ensured_get, ensured_keys.
  unfold vertices.
  destruct (decide (w ∈ dict_keys (adjacency_list g))) as [Hw|Hw].
  - rewrite decide_True by (apply elem_of_app; by left).
    rewrite ensured_get. by rewrite decide_True.
  - rewrite decide_False; [done|].
    intros [?|Hin]%elem_of_app; [done|].
    destruct (decide (u ∈ dict_keys (adjacency_list g))).
    + by apply elem_of_nil in Hin.
    + apply elem_of_cons in Hin as [?|?%elem_of_nil]; done.
Qed.

Lemma add_edge_vertices_elem u v g g' w :
  add_edge u v g = Ok (tt, g') →
  w ∈ vertices g' ↔ w ∈ vertices g ∨ w = u ∨ w = v.
Proof.
  intros ->%add_edge_vertices. rewrite !elem_of_app.
  destruct (decide (u ∈ vertices g)) as [Hu|Hu];
    destruct (decide (v ∈ vertices g ∨ v = u)) as [Hv|Hv];
    rewrite ?elem_of_cons, ?elem_of_nil; intuition (subst; auto).
Qed.

Lemma add_edge_vertices_NoDup u v g g' :
  add_edge u v g = Ok (tt, g') → NoDup (vertices g) → NoDup (vertices g').
Proof.
  intros ->%add_edge_vertices Hnd.
  destruct (decide (u ∈ vertices g)) as [Hu|Hu];
    destruct (decide (v ∈ vertices g ∨ v = u)) as [Hv|Hv]; simpl.
  - by rewrite app_nil_r.
  - apply NoDup_app. split_and!; [done| |apply NoDup_singleton].
    intros x Hx ->%list_elem_of_singleton. apply Hv. by left.
  - apply NoDup_app. split_and!; [done| |apply NoDup_singleton].
    intros x Hx ->%list_elem_of_singleton. done.
  - apply NoDup_app. split_and!; [done| |].
    + intros x Hx [->|[->|?%elem_of_nil]%elem_of_cons]%elem_of_cons; [done| |done].
      apply Hv. by left.
    + apply NoDup_cons. split; [|apply NoDup_singleton].
      intros ->%list_elem_of_singleton. apply Hv. by right.
Qed.

Lemma add_vertex_well_formed v g g' :
  add_vertex v g = Ok (tt, g') → well_formed g → well_formed g'.
Proof.
  rewrite add_vertex_run. intros [= <-] [Hnd Hcl]. split.
  - unfold vertices. simpl. rewrite ensured_keys.
    destruct (decide (v ∈ dict_keys (adjacency_list g))) as [Hv|Hv].
    + by rewrite app_nil_r.
    + apply NoDup_app. split_and!; [done| |apply NoDup_singleton].
      intros x Hx ->%list_elem_of_singleton. done.
  - intros x y (s & Hs & Hy). simpl in Hs. rewrite ensured_get in Hs.
    unfold vertices. simpl. rewrite ensured_keys. apply elem_of_app. left.
    destruct (decide (x ∈ dict_keys (adjacency_list g))).
    + apply (Hcl x y). by exists s.
    + destruct (decide (x = v)); [|done]. injection Hs as <-.
      by apply elem_of_nil in Hy.
Qed.

Lemma add_edge_well_formed u v g g' :
  add_edge u v g = Ok (tt, g') → well_formed g → well_formed g'.
Proof.
  intros Hrun [Hnd Hcl]. split; [by eapply add_edge_vertices_NoDup|].
  intros x y (s & Hs & Hy).
  apply (add_edge_vertices_elem u v g g' y Hrun).
  destruct (decide (x = u)) as [->|Hne].
  - rewrite (add_edge_source u v g g' Hrun) in Hs. injection Hs as <-.
    apply elem_of_app in Hy as [Hy | ->%list_elem_of_singleton]; [|by right; right].
    left. apply (Hcl u y). unfold successors_of in Hy.
    destruct (dict_get u (adjacency_list g)) as [s|] eqn:Hu.
    + by exists s.
    + by apply elem_of_nil in Hy.
  - rewrite (add_edge_others u v g g' x Hrun Hne) in Hs.
    destruct (decide (x ∈ vertices g)).
    + left. apply (Hcl x y). by exists s.
    + destruct (decide (x = v)); [|done]. injection Hs as <-.
      by apply elem_of_nil in Hy.
Qed.

Lemma perform_total c g : ∃ g', perform c g = Ok (tt, g').
Proof.
  destruct c as [v|u v]; simpl.
  - rewrite add_vertex_run. by eexists.
  - rewrite add_edge_run. by eexists.
Qed.

Lemma perform_well_formed c g g' :
  perform c g = Ok (tt, g') → well_formed g → well_formed g'.
Proof.
  destruct c as [v|u v]; simpl.
  - apply add_vertex_well_formed.
  - apply add_edge_well_formed.
Qed.

Lemma init_well_formed : well_formed init.
Proof.
  split.
  - apply NoDup_nil_2.
  - intros u v (s & Hs & _). done.
Qed.

Lemma calls_well_formed calls : ∀ g g',
  for_each calls perform g = Ok (tt, g') → well_formed g → well_formed g'.
Proof.
  induction calls as [|c calls IH]; intros g g'; cbn [for_each].
  - intros [= <-]. done.
  - intros ([] & g1 & H1 & H2)%bind_Ok Hwf.
    eapply IH; [done|]. by eapply perform_well_formed.
Qed.

Lemma calls_total calls : ∀ g, ∃ g', for_each calls perform g = Ok (tt, g').
Proof.
  induction calls as [|c calls IH]; intros g; cbn [for_each].
  - by exists g.
  - destruct (perform_total c g) as [g1 H1]. destruct (IH g1) as [g' H'].
    exists g'. unfold bind. by rewrite H1.
Qed.

Lemma built_well_formed g : built g → well_formed g.
Proof.
  intros [calls Hcalls]. eapply calls_well_formed; [done|].
  apply init_well_formed.
Qed.

(** ** Positions in the returned sequence *)

Lemma index_app_r x l1 l2 :
  x ∉ l1 → index x (l1 ++ l2) = (λ k, length l1 + k) <$> index x l2.
Proof.
  induction l1 as [|y l1 IH]; simpl.
  - intros _. by destruct (index x l2).
  - rewrite not_elem_of_cons. intros [Hne Hnin].
    rewrite decide_False by done. rewrite IH by done.
    by destruct (index x l2).
Qed.

Lemma index_elem x l : x ∈ l → is_Some (index x l).
Proof.
  induction l as [|y l IH]; simpl.
  - by intros ?%elem_of_nil.
  - destruct (decide (x = y)); [by eexists|].
    intros [?|Hin]%elem_of_cons; [done|].
    destruct (IH Hin) as [k ->]. by eexists.
Qed.

(** In a sequence that lists every vertex before its successors, with no
    repetition, the first position of the source of an edge is below that
    of its target. *)
Lemma sorted_ranks g order u v :
  NoDup order →
  (∀ l1 w l2, order = l1 ++ w :: l2 → ∀ w', edge g w w' → w' ∈ l2) →
  u ∈ order → edge g u v →
  ∃ i j, index u order = Some i ∧ index v order = Some j ∧ i < j.
Proof.
  intros Hnd Hsorted Hu Hedge.
  apply list_elem_of_split in Hu as (l1 & l2 & ->).
  pose proof (Hsorted l1 u l2 eq_refl v Hedge) as Hv.
  apply NoDup_app in Hnd as (_ & Hdisj & Hnd2).
  apply NoDup_cons in Hnd2 as [Hu2 _].
  assert (Hu1 : u ∉ l1) by (intros Hin; apply (Hdisj u Hin); by left).
  assert (Hv1 : v ∉ l1) by (intros Hin; apply (Hdisj v Hin); by right).
  assert (Hne : v ≠ u) by (by intros ->).
  destruct (index_elem v l2 Hv) as [k Hk].
  exists (length l1), (length l1 + S k). split_and!.
  - by apply index_app_middle.
  - rewrite index_app_r by done. simpl. rewrite decide_False by done.
    by rewrite Hk.
  - lia.
Qed.

Lemma sorted_ranks_path g order :
  NoDup order →
  (∀ l1 w l2, order = l1 ++ w :: l2 → ∀ w', edge g w w' → w' ∈ l2) →
  (∀ w, w ∈ vertices g → w ∈ order) →
  ∀ u v, tc (edge g) u v →
  ∃ i j, index u order = Some i ∧ index v order = Some j ∧ i < j.
Proof.
  intros Hnd Hsorted Hall u v Hpath.
  induction Hpath as [u v Hedge|u w v Hedge Hpath IH].
  - eapply sorted_ranks; try done. eapply Hall, edge_source. done.
  - destruct IH as (j & k & Hj & Hk & Hjk).
    destruct (sorted_ranks g order u w) as (i & j' & Hi & Hj' & Hij); try done.
    { eapply Hall, edge_source. done. }
    exists i, k. split_and!; try done.
    assert (j' = j) by congruence. lia.
Qed.

(** ** What [topological_sort] returns *)

Lemma topological_sort_final depth g a :
  final depth g = Ok (tt, a) →
  topological_sort depth g = Ok (result_of a, self a).
Proof. unfold final, topological_sort. by intros ->. Qed.

Lemma topological_sort_inv depth g r g' :
  topological_sort depth g = Ok (r, g') →
  ∃ a, final depth g = Ok (tt, a) ∧ r = result_of a ∧ g' = self a.
Proof.
  unfold final, topological_sort.
  destruct (traverse _ _) as [[[] a]| |]; [|done..].
  intros [= <- <-]. by exists a.
Qed.

Lemma final_self depth g a : final depth g = Ok (tt, a) → self a = g.
Proof. intros Hfin. apply (ext_self (enter g) a). by eapply traverse_extends. Qed.

Lemma topological_sort_self depth g r g' :
  topological_sort depth g = Ok (r, g') → g' = g.
Proof.
  intros (a & Hfin & _ & ->)%topological_sort_inv. by eapply final_self.
Qed.

Lemma returns_sequence_result depth g order :
  returns_sequence depth g order → topological_sort depth g = Ok (order, g).
Proof.
  intros (a & Hfin & Hdag & <-).
  rewrite (topological_sort_final depth g a Hfin), (final_self depth g a Hfin).
  unfold result_of. by rewrite Hdag.
Qed.

Lemma returns_failure_result depth g :
  returns_failure depth g → topological_sort depth g = Ok ([], g).
Proof.
  intros (a & Hfin & Hdag).
  rewrite (topological_sort_final depth g a Hfin), (final_self depth g a Hfin).
  unfold result_of. by rewrite Hdag.
Qed.

Lemma traverse_budget_add n k a :
  traverse n a ≠ RecursionError → traverse (n + k) a = traverse n a.
Proof.
  rewrite !traverse_unfold. apply for_each_agree.
  intros x s. rewrite !visit_unfold.
  destruct (visit_state s !! x) as [c|]; [|done].
  destruct (decide (c = 0)); [|done]. apply dfs_budget_add.
Qed.

(** A call that raises no [RecursionError] does what it does with any
    depth above the number of keys. *)
Lemma final_stable depth depth' g :
  final depth g ≠ RecursionError → length (adjacency_list g) < depth' →
  final depth' g = final depth g.
Proof.
  unfold final. intros Hne Hdepth'.
  rewrite <- (traverse_budget_add depth depth') by done.
  rewrite Nat.add_comm. symmetry. apply traverse_budget_add.
  by apply traverse_within_budget.
Qed.

(** The call on a closed graph completes, with every vertex finished and
    the invariant kept, unless it raises [RecursionError]. *)
Lemma final_outcome depth g :
  closed g →
  final depth g = RecursionError ∨
  ∃ a, final depth g = Ok (tt, a) ∧ traversal_inv g a ∧
       ∀ v, v ∈ vertices g → visit_state a !! v = Some 2.
Proof.
  intros Hclosed.
  destruct (traverse_correct (S (length (adjacency_list g))) g Hclosed)
    as (a & Hfin & Hinv & Hall); [lia|].
  assert (Hstable : final depth g ≠ RecursionError →
                    final depth g = Ok (tt, a)).
  { intros Hne. rewrite <- Hfin. symmetry. apply final_stable; [done|lia]. }
  destruct (final depth g) as [[[] a']| |] eqn:Hdepth.
  - right. exists a. rewrite Hstable by done. done.
  - by specialize (Hstable ltac:(done)).
  - by left.
Qed.

(** The call on a closed graph, with a depth above the number of keys,
    takes one of the two returns. *)
Lemma returns_either depth g :
  closed g → length (adjacency_list g) < depth →
  returns_failure depth g ∨ ∃ order, returns_sequence depth g order.
Proof.
  intros Hclosed Hdepth.
  destruct (traverse_correct depth g Hclosed Hdepth) as (a & Hfin & _ & _).
  destruct (is_dag a) eqn:Hdag.
  - right. by exists (topological_order a), a.
  - left. by exists a.
Qed.

(** The facts about a returned sequence, on a closed graph. *)
Lemma returns_sequence_facts depth g order :
  closed g → returns_sequence depth g order →
  NoDup order ∧
  (∀ v, v ∈ order ↔ v ∈ vertices g) ∧
  (∀ l1 w l2, order = l1 ++ w :: l2 → ∀ w', edge g w w' → w' ∈ l2).
Proof.
  intros Hclosed (a & Hfin & Hdag & <-).
  destruct (final_outcome depth g Hclosed) as [Hrec|(a' & Hfin' & Hinv & Hall)];
    [congruence|].
  assert (a' = a) as -> by congruence.
  split_and!.
  - apply (inv_once g a Hinv).
  - intros v. rewrite <- (inv_done g a Hinv). split.
    + intros Hv. apply (inv_dom g a Hinv). by eexists.
    + apply Hall.
  - by apply (inv_sorted g a Hinv).
Qed.

(** A cycle rules the last return out. *)
Lemma cycle_no_sequence depth g order :
  closed g → has_cycle g → ¬ returns_sequence depth g order.
Proof.
  intros Hclosed [u Hcycle] Hseq.
  destruct (returns_sequence_facts depth g order Hclosed Hseq)
    as (Hnd & Hall & Hsorted).
  destruct (sorted_ranks_path g order Hnd Hsorted (λ w, proj2 (Hall w)) u u Hcycle)
    as (i & j & Hi & Hj & Hij).
  assert (i = j) by congruence. lia.
Qed.

(** ** A flagged cycle is a cycle of the graph *)

(** While [dfs] runs, the vertices in progress are the callers on the
    recursion path, and each of them reaches the vertex of the current call
    along stored edges. A call that flags a cycle therefore met one. *)
Lemma dfs_flag_cycle n : ∀ v a a',
  dfs n v a = Ok (tt, a') →
  (∀ w, visit_state a !! w = Some 1 → tc (edge (self a)) w v) →
  is_dag a = true → is_dag a' = false → has_cycle (self a).
Proof.
  induction n as [|n IH]; intros v a a'; [done|].
  rewrite dfs_unfold.
  destruct (visit_state a !! v) as [c|] eqn:Hc; [|done].
  destruct (decide (c = 1)) as [->|Hn1].
  { intros _ Hpath _ _. exists v. by apply Hpath. }
  destruct (decide (c = 2)) as [->|Hn2].
  { intros [= <-] _ Htrue Hfalse. congruence. }
  destruct (dict_get v (adjacency_list (self a))) as [successors|] eqn:Hsucc;
    [|done].
  destruct (for_each successors (dfs n) (marked v 1 a)) as [[[] ak]| |] eqn:Hloop;
    [|done..].
  intros [= <-] Hpath Htrue Hfalse. simpl in Hfalse.
  assert (Hgen : ∀ l a1 a2,
    (∀ x, x ∈ l → edge (self a) v x) →
    self a1 = self a →
    (∀ w, visit_state a1 !! w = Some 1 → w = v ∨ tc (edge (self a)) w v) →
    for_each l (dfs n) a1 = Ok (tt, a2) →
    is_dag a1 = true → is_dag a2 = false → has_cycle (self a)).
  { induction l as [|x l IHl]; intros a1 a2 Hl Hself Hgrey; cbn [for_each].
    - intros [= <-] ? ?. congruence.
    - intros ([] & a1' & Hx & Hrest)%bind_Ok Ht Hf.
      pose proof (dfs_extends n x a1 a1' Hx) as Hext.
      destruct (is_dag a1') eqn:Hdag'.
      + apply (IHl a1' a2); try done.
        * intros y Hy. apply Hl. by right.
        * rewrite <- Hself. apply (ext_self a1 a1' Hext).
        * intros w Hw. apply Hgrey.
          by apply (extends_in_progress a1 a1' w Hext).
      + rewrite <- Hself. apply (IH x a1 a1' Hx); [|done..].
        rewrite Hself. intros w Hw.
        destruct (Hgrey w Hw) as [->|Hwv].
        * apply tc_once, Hl. by left.
        * eapply tc_r; [done|]. apply Hl. by left. }
  apply (Hgen successors (marked v 1 a) ak); try done.
  - intros x Hx. by exists successors.
  - simpl. intros w. destruct (decide (w = v)) as [->|Hne]; [by left|].
    rewrite lookup_insert_ne by done. intros Hw. right. by apply Hpath.
Qed.

Lemma traverse_flag_cycle n g a :
  traverse n (enter g) = Ok (tt, a) → is_dag a = false → has_cycle g.
Proof.
  rewrite traverse_unfold. cbn [self enter].
  assert (Hgen : ∀ l a1 a2,
    self a1 = g → (∀ w, visit_state a1 !! w ≠ Some 1) →
    for_each l (visit n) a1 = Ok (tt, a2) →
    is_dag a1 = true → is_dag a2 = false → has_cycle g).
  { induction l as [|x l IHl]; intros a1 a2 Hself Hgrey; cbn [for_each].
    - intros [= <-] ? ?. congruence.
    - intros ([] & a1' & Hx & Hrest)%bind_Ok Ht Hf.
      pose proof (visit_extends n x a1 a1' Hx) as Hext.
      destruct (is_dag a1') eqn:Hdag'.
      + apply (IHl a1' a2); try done.
        * rewrite <- Hself. apply (ext_self a1 a1' Hext).
        * intros w. rewrite (extends_in_progress a1 a1' w Hext). apply Hgrey.
      + revert Hx. rewrite visit_unfold.
        destruct (visit_state a1 !! x) as [c|]; [|done].
        destruct (decide (c = 0)); [|intros [= <-]; congruence].
        intros Hx. rewrite <- Hself.
        apply (dfs_flag_cycle n x a1 a1' Hx); [|done..].
        intros w Hw. by destruct (Hgrey w). }
  intros Hrun. apply (Hgen (vertices g) (enter g) a); try done.
  cbn [visit_state enter]. intros w. rewrite fresh_visit_state_lookup.
  by destruct (decide _).
Qed.

(** What a completed call returned is its sequence, and not the value of
    the failure return, when it is not empty or the graph has no cycle. *)
Lemma result_is_sequence depth g order g' :
  topological_sort depth g = Ok (order, g') →
  order ≠ [] ∨ ¬ has_cycle g →
  returns_sequence depth g order.
Proof.
  intros (a & Hfin & -> & _)%topological_sort_inv Hsuccess.
  exists a. unfold result_of in *. destruct (is_dag a) eqn:Hdag; simpl in *.
  - done.
  - destruct Hsuccess as [?|Hacyclic]; [done|].
    destruct Hacyclic. by apply (traverse_flag_cycle depth g a).
Qed.

(** ** Example graphs *)

Lemma chain_built : built chain.
Proof. exists [AddEdge "A" "B"; AddEdge "B" "C"]%string. reflexivity. Defined.

Lemma two_cycle_built : built two_cycle.
Proof. exists [AddEdge "A" "B"; AddEdge "B" "A"]%string. reflexivity. Defined.


Lemma chain_sorted :
  topological_sort 1000 chain = Ok (["A"; "B"; "C"]%string, chain).
Proof. vm_compute. reflexivity. Defined.

Lemma chain_not_empty : ["A"; "B"; "C"]%string ≠ [] ∨ ¬ has_cycle chain.
Proof. left. discriminate. Defined.

Lemma chain_edge : edge chain "A" "B".
Proof. exists ["B"]%string. split; [reflexivity|]. apply list_elem_of_here. Defined.

Lemma two_cycle_has_cycle : has_cycle two_cycle.
Proof.
  exists "A"%string. apply tc_l with "B"%string.
  - exists ["B"]%string. split; [reflexivity|]. apply list_elem_of_here.
  - apply tc_once. exists ["A"]%string. split; [reflexivity|]. apply list_elem_of_here.
Defined.

(** ** The scenarios of [test_graph_adt] *)

Example test_linear_dependency :
  (add_edge "A" "B" ;;; add_edge "B" "C" ;;; topological_sort 1000) init
  = Ok (["A"; "B"; "C"]%string, chain).
Proof. vm_compute. reflexivity. Qed.

Example test_multiple_starting_points :
  (add_edge "A" "C" ;;; add_edge "B" "C" ;;; topological_sort 1000) init
  = Ok (["B"; "A"; "C"]%string,
        mkGraph [("A", ["C"]); ("C", []); ("B", ["C"])]%string).
Proof. vm_compute. reflexivity. Qed.

Example test_empty_graph : topological_sort 1000 init = Ok ([], init).
Proof. vm_compute. reflexivity. Qed.

Example test_single_vertex :
  (add_vertex "Single" ;;; topological_sort 1000) init
  = Ok (["Single"]%string, mkGraph [("Single", [])]%string).
Proof. vm_compute. reflexivity. Qed.

(** The chain of three vertices needs three nested calls of [dfs]: when
    the interpreter allows two, the call raises. *)
Example test_recursion_limit :
  topological_sort 2 chain = RecursionError ∧
  topological_sort 3 chain = Ok (["A"; "B"; "C"]%string, chain).
Proof. split; vm_compute; reflexivity. Qed.

(** ** The properties of the specification *)

(** C1 (validity of the ordering). On a graph built by [add_vertex] and
    [add_edge] calls, when what [topological_sort] returns is a success
    sequence (the returned list is not empty, or the graph has no cycle, so
    that the list is not the value of the failure return), every stored edge
    [(u, v)], duplicates included, has the index of [u] in the returned list
    strictly below the index of [v]. This holds whatever depth of recursion
    the interpreter allows. *)
Theorem topological_sort_valid depth g order g' u v :
  built g → topological_sort depth g = Ok (order, g') →
  order ≠ [] ∨ ¬ has_cycle g → edge g u v →
  ∃ i j, index u order = Some i ∧ index v order = Some j ∧ i < j.
Proof.
  intros Hwf%built_well_formed Hrun Hsuccess Hedge.
  pose proof (result_is_sequence depth g order g' Hrun Hsuccess) as Hseq.
  destruct (returns_sequence_facts depth g order (wf_closed g Hwf) Hseq)
    as (Hnd & Hall & Hsorted).
  apply (sorted_ranks g order u v Hnd Hsorted); [|done].
  apply Hall. by eapply edge_source.
Qed.

Lemma topological_sort_valid_witness :
  ∃ i j, index "A" ["A"; "B"; "C"]%string = Some i ∧
         index "B" ["A"; "B"; "C"]%string = Some j ∧ i < j.
Proof.
  exact (topological_sort_valid 1000 chain ["A"; "B"; "C"]%string chain "A" "B"
           chain_built chain_sorted chain_not_empty chain_edge).
Defined.

(** C2 (cycle detection is all-or-nothing). On a built graph that contains a
    directed cycle, whatever depth of recursion the interpreter allows,
    [topological_sort] returns the empty list of the failure return or raises
    [RecursionError]; it never returns a sequence of vertices, whole or
    partial. When the interpreter allows more nested calls than the graph
    has vertices, it does return, and returns the failure value. *)
Theorem cycle_detected depth g :
  built g → has_cycle g →
  (topological_sort depth g = Ok ([], g) ∨
   topological_sort depth g = RecursionError) ∧
  (∀ order g', topological_sort depth g = Ok (order, g') → order = []) ∧
  (∀ order, ¬ returns_sequence depth g order) ∧
  (length (adjacency_list g) < depth →
   returns_failure depth g ∧ topological_sort depth g = Ok ([], g)).
Proof.
  intros Hwf%built_well_formed Hcycle.
  pose proof (wf_closed g Hwf) as Hclosed.
  assert (Hno : ∀ order, ¬ returns_sequence depth g order)
    by (intros order; by apply cycle_no_sequence).
  assert (Hfail : ∀ a, final depth g = Ok (tt, a) → returns_failure depth g).
  { intros a Hfin. exists a. split; [done|].
    destruct (is_dag a) eqn:Hdag; [|done].
    by destruct (Hno (topological_order a)); exists a. }
  split_and!.
  - destruct (final_outcome depth g Hclosed) as [Hrec|(a & Hfin & _)].
    + right. unfold final in Hrec. unfold topological_sort. by rewrite Hrec.
    + left. by apply returns_failure_result, (Hfail a).
  - intros order g' Hrun.
    destruct (topological_sort_inv depth g order g' Hrun) as (a & Hfin & _).
    rewrite (returns_failure_result depth g (Hfail a Hfin)) in Hrun. congruence.
  - done.
  - intros Hdepth.
    destruct (traverse_correct depth g Hclosed Hdepth) as (a & Hfin & _).
    split; [by apply (Hfail a)|]. by apply returns_failure_result, (Hfail a).
Qed.

Lemma cycle_detected_witness :
  returns_failure 1000 two_cycle ∧
  topological_sort 1000 two_cycle = Ok ([], two_cycle).
Proof.
  apply (cycle_detected 1000 two_cycle two_cycle_built two_cycle_has_cycle).
  simpl. lia.
Defined.

(** C3 (completeness). On a built graph, when what [topological_sort]
    returns is a success sequence (the returned list is not empty, or the
    graph has no cycle), the returned list holds every key of the adjacency
    mapping exactly once: it has no repetition and it is a rearrangement of
    the keys. This holds whatever depth of recursion the interpreter
    allows. *)
Theorem topological_sort_complete depth g order g' :
  built g → topological_sort depth g = Ok (order, g') →
  order ≠ [] ∨ ¬ has_cycle g →
  NoDup order ∧ (∀ v, v ∈ order ↔ v ∈ vertices g) ∧ order ≡ₚ vertices g.
Proof.
  intros Hwf%built_well_formed Hrun Hsuccess.
  pose proof (result_is_sequence depth g order g' Hrun Hsuccess) as Hseq.
  destruct (returns_sequence_facts depth g order (wf_closed g Hwf) Hseq)
    as (Hnd & Hall & _).
  split_and!; [done..|].
  apply NoDup_Permutation; [done|apply (wf_keys g Hwf)|done].
Qed.

Lemma topological_sort_complete_witness :
  NoDup ["A"; "B"; "C"]%string ∧
  (∀ v, v ∈ ["A"; "B"; "C"]%string ↔ v ∈ vertices chain) ∧
  ["A"; "B"; "C"]%string ≡ₚ vertices chain.
Proof.
  exact (topological_sort_complete 1000 chain ["A"; "B"; "C"]%string chain
           chain_built chain_sorted chain_not_empty).
Defined.

(** C4, as the claim states it, fails: the call on the graph with no vertex
    takes the success return and the call on a two-vertex cycle takes the
    failure return, and both return the same value, the empty list. *)
Lemma failure_not_distinguishable :
  (returns_sequence 1000 init [] ∧ topological_sort 1000 init = Ok ([], init)) ∧
  (returns_failure 1000 two_cycle ∧
   topological_sort 1000 two_cycle = Ok ([], two_cycle)).
Proof.
  split_and!.
  - eexists. split_and!; [vm_compute; reflexivity|reflexivity..].
  - vm_compute. reflexivity.
  - eexists. split_and!; [vm_compute; reflexivity|reflexivity].
  - vm_compute. reflexivity.
Qed.

(** C4, amended. The failure return of [topological_sort] is the empty list.
    On a built graph it differs from the returned sequence exactly when the
    graph has a vertex: a returned sequence is empty only for the graph with
    no vertex, whose call is a success and returns the empty list too. So on
    a built graph with a vertex the returned list is empty exactly when the
    graph has a cycle. *)
Theorem failure_is_empty_list depth g :
  built g →
  (returns_failure depth g → topological_sort depth g = Ok ([], g)) ∧
  (∀ order, returns_sequence depth g order →
     topological_sort depth g = Ok (order, g) ∧ (order = [] ↔ vertices g = [])) ∧
  returns_sequence depth init [] ∧
  (∀ order g', topological_sort depth g = Ok (order, g') → vertices g ≠ [] →
     order = [] ↔ has_cycle g).
Proof.
  intros Hwf%built_well_formed.
  assert (Hempty : ∀ order, returns_sequence depth g order →
                            order = [] ↔ vertices g = []).
  { intros order Hseq.
    destruct (returns_sequence_facts depth g order (wf_closed g Hwf) Hseq)
      as (_ & Hall & _).
    split.
    - intros ->. destruct (vertices g) as [|x l]; [done|].
      exfalso. apply (elem_of_nil x), Hall. by left.
    - intros Hnil. rewrite Hnil in Hall. destruct order as [|x l]; [done|].
      exfalso. apply (elem_of_nil x), Hall. by left. }
  split_and!.
  - apply returns_failure_result.
  - intros order Hseq. split; [by apply returns_sequence_result|by apply Hempty].
  - by eexists.
  - intros order g' Hrun Hne. split.
    + intros ->.
      destruct (topological_sort_inv depth g [] g' Hrun) as (a & Hfin & Hres & _).
      destruct (is_dag a) eqn:Hdag.
      * destruct Hne. apply (Hempty []); [|done]. exists a.
        unfold result_of in Hres. rewrite Hdag in Hres. done.
      * by apply (traverse_flag_cycle depth g a).
    + intros Hcycle. destruct order as [|x l]; [done|].
      destruct (cycle_no_sequence depth g (x :: l) (wf_closed g Hwf) Hcycle).
      apply (result_is_sequence depth g (x :: l) g' Hrun). by left.
Qed.

Lemma failure_is_empty_list_witness :
  (returns_failure 1000 chain → topological_sort 1000 chain = Ok ([], chain)) ∧
  (∀ order, returns_sequence 1000 chain order →
     topological_sort 1000 chain = Ok (order, chain) ∧
     (order = [] ↔ vertices chain = [])) ∧
  returns_sequence 1000 init [] ∧
  (∀ order g', topological_sort 1000 chain = Ok (order, g') → vertices chain ≠ [] →
     order = [] ↔ has_cycle chain).
Proof. exact (failure_is_empty_list 1000 chain chain_built). Defined.

(** C5 (pure read). A call of [topological_sort] that returns leaves the
    object as it was: the same keys in the same order, each with the same
    successor list. *)
Theorem topological_sort_pure depth g result g' :
  topological_sort depth g = Ok (result, g') →
  g' = g ∧ adjacency_list g' = adjacency_list g.
Proof. intros ->%topological_sort_self. done. Qed.

Lemma topological_sort_pure_witness :
  chain = chain ∧ adjacency_list chain = adjacency_list chain.
Proof.
  exact (topological_sort_pure 1000 chain ["A"; "B"; "C"]%string chain
           chain_sorted).
Defined.



(** C7 (the contract of [add_edge]). A call [add_edge u v] never fails. It
    does what [add_vertex u], then [add_vertex v], then appending [v] to the
    successors of [u] do: a new [u] becomes the last key, a new [v] the key
    after it, the successor list of [u] gains [v] at its end whether or not
    it held [v] already, and no other successor list changes. A second call
    with the same pair adds no key and stores [v] a second time. *)
Theorem add_edge_contract u v g :
  ∃ g', add_edge u v g = Ok (tt, g') ∧
    add_edge u v g = (add_vertex u ;;; add_vertex v ;;; append_successor u v) g ∧
    vertices g' = vertices g ++ (if decide (u ∈ vertices g) then [] else [u])
                             ++ (if decide (v ∈ vertices g ∨ v = u) then [] else [v]) ∧
    dict_get u (adjacency_list g') = Some (successors_of u g ++ [v]) ∧
    (∀ w, w ≠ u →
       dict_get w (adjacency_list g') =
         if decide (w ∈ vertices g) then dict_get w (adjacency_list g)
         else if decide (w = v) then Some [] else None) ∧
    ∃ g'', add_edge u v g' = Ok (tt, g'') ∧
      vertices g'' = vertices g' ∧
      dict_get u (adjacency_list g'') = Some (successors_of u g ++ [v; v]).
Proof.
  destruct (perform_total (AddEdge u v) g) as [g' Hrun]. simpl in Hrun.
  exists g'. split_and!.
  - done.
  - apply add_edge_steps.
  - by apply add_edge_vertices.
  - by apply add_edge_source.
  - intros w. by apply add_edge_others.
  - destruct (perform_total (AddEdge u v) g') as [g'' Hrun']. simpl in Hrun'.
    exists g''. split_and!.
    + done.
    + rewrite (add_edge_vertices u v g' g'' Hrun').
      assert (Hu : u ∈ vertices g')
        by (apply (add_edge_vertices_elem u v g g' u Hrun); right; by left).
      assert (Hv : v ∈ vertices g')
        by (apply (add_edge_vertices_elem u v g g' v Hrun); right; by right).
      rewrite decide_True by done. rewrite decide_True by (by left).
      by rewrite !app_nil_r.
    + rewrite (add_edge_source u v g' g'' Hrun'). unfold successors_of at 1.
      rewrite (add_edge_source u v g g' Hrun). simpl. by rewrite <- app_assoc.
Qed.

Lemma add_edge_contract_witness :
  ∃ g', add_edge "A" "B" init = Ok (tt, g') ∧
        vertices g' = ["A"; "B"]%string ∧
        ∃ g'', add_edge "A" "B" g' = Ok (tt, g'') ∧
               dict_get "A" (adjacency_list g'') = Some ["B"; "B"]%string.
Proof.
  destruct (add_edge_contract "A" "B" init)
    as (g' & Hrun & _ & Hkeys & _ & _ & g'' & Hrun' & _ & Hsucc).
  exists g'. split_and!; [exact Hrun|exact Hkeys|].
  exists g''. split; [exact Hrun'|exact Hsucc].
Defined.

(** C8 (endpoint closure). Any sequence of [add_vertex] and [add_edge] calls
    on a new object completes, and in the object it leaves every vertex of
    every successor list is a key of the adjacency mapping. A target that
    [add_edge] meets for the first time is entered with no successor. *)
Theorem endpoints_are_vertices calls :
  ∃ g, for_each calls perform init = Ok (tt, g) ∧
    (∀ u successors v,
       dict_get u (adjacency_list g) = Some successors → v ∈ successors →
       v ∈ dict_keys (adjacency_list g) ∧ is_Some (dict_get v (adjacency_list g))) ∧
    (∀ u v g',
       add_edge u v g = Ok (tt, g') → v ∉ vertices g → v ≠ u →
       dict_get v (adjacency_list g') = Some []).
Proof.
  destruct (calls_total calls init) as [g Hcalls]. exists g. split_and!.
  - done.
  - intros u successors v Hu Hv.
    assert (Hin : v ∈ vertices g).
    { apply (wf_closed g (calls_well_formed calls init g Hcalls init_well_formed) u v).
      by exists successors. }
    split; [done|]. by apply dict_get_is_Some.
  - intros u v g' Hrun Hv Hne.
    rewrite (add_edge_others u v g g' v Hrun Hne).
    rewrite decide_False by done. by rewrite decide_True.
Qed.

Lemma endpoints_are_vertices_witness :
  ∃ g, for_each [AddEdge "A" "B"; AddEdge "B" "C"]%string perform init = Ok (tt, g) ∧
       "C"%string ∈ dict_keys (adjacency_list g).
Proof.
  destruct (endpoints_are_vertices [AddEdge "A" "B"; AddEdge "B" "C"]%string)
    as (g & Hcalls & Hclosed & _).
  exists g. split; [exact Hcalls|].
  injection Hcalls as <-.
  exact (proj1 (Hclosed "B" ["C"] "C" eq_refl (list_elem_of_here _ _)))%string.
Defined.

(** C9 (termination). On every graph, cyclic or not, and whatever depth of
    recursion the interpreter allows, a call of [topological_sort] ends: it
    returns, or raises [KeyError], or raises [RecursionError]. The calls of
    [dfs] nest no deeper than the graph has vertices, because a vertex that
    is in progress or finished is not entered again: when the interpreter
    allows more nested calls than that, no [RecursionError] is raised and a
    larger allowance changes nothing. Whenever the call returns on a built
    graph, every vertex has been finished, once; and it does return on a
    built graph when the interpreter allows more nested calls than the graph
    has vertices. *)
Theorem topological_sort_terminates depth g :
  ((∃ result, topological_sort depth g = Ok (result, g)) ∨
   topological_sort depth g = KeyError ∨
   topological_sort depth g = RecursionError) ∧
  (length (adjacency_list g) < depth →
   topological_sort depth g ≠ RecursionError ∧
   ∀ k, topological_sort (depth + k) g = topological_sort depth g) ∧
  (built g → ∀ a, final depth g = Ok (tt, a) →
     NoDup (topological_order a) ∧
     ∀ v, v ∈ vertices g → visit_state a !! v = Some 2) ∧
  (built g → length (adjacency_list g) < depth →
     ∃ a, final depth g = Ok (tt, a) ∧
          topological_sort depth g = Ok (result_of a, g)).
Proof.
  split_and!.
  - destruct (topological_sort depth g) as [[result g']| |] eqn:Hrun; [|auto..].
    left. exists result. by rewrite (topological_sort_self depth g result g' Hrun).
  - intros Hdepth.
    pose proof (traverse_within_budget depth g Hdepth) as Hbudget. split.
    + unfold topological_sort. by destruct (traverse _ _) as [[[] a]| |].
    + intros k. unfold topological_sort. by rewrite traverse_budget_add.
  - intros Hwf%built_well_formed a Hfin.
    destruct (final_outcome depth g (wf_closed g Hwf))
      as [Hrec|(a' & Hfin' & Hinv & Hall)]; [congruence|].
    assert (a' = a) as -> by congruence.
    split; [apply (inv_once g a Hinv)|done].
  - intros Hwf%built_well_formed Hdepth.
    destruct (traverse_correct depth g (wf_closed g Hwf) Hdepth)
      as (a & Hfin & _).
    exists a. split; [done|].
    rewrite (topological_sort_final depth g a Hfin).
    by rewrite (final_self depth g a Hfin).
Qed.

Lemma topological_sort_terminates_witness :
  topological_sort 1000 two_cycle ≠ RecursionError ∧
  ∃ a, final 1000 two_cycle = Ok (tt, a) ∧ NoDup (topological_order a).
Proof.
  destruct (topological_sort_terminates 1000 two_cycle)
    as (_ & Hbound & Honce & Hreturns).
  destruct (Hbound ltac:(simpl; lia)) as [Hne _].
  destruct (Hreturns two_cycle_built ltac:(simpl; lia)) as (a & Hfin & _).
  split; [exact Hne|]. exists a. split; [exact Hfin|].
  exact (proj1 (Honce two_cycle_built a Hfin)).
Defined.

(** ** The two classes side by side *)

Section simulation.
Context {S S' : Type} (f : S → S').

Lemma simulates_ret {A} (a : A) : simulates f (ret a) (ret a).
Proof. done. Qed.

Lemma simulates_bind {A B} (c : M S A) (c' : M S' A) (k : A → M S B)
    (k' : A → M S' B) :
  simulates f c c' → (∀ a, simulates f (k a) (k' a)) →
  simulates f (bind c k) (bind c' k').
Proof.
  intros Hc Hk s. unfold bind. rewrite Hc.
  destruct (c s) as [[a s1]| |]; simpl; [apply Hk|done..].
Qed.

Lemma simulates_for_each {A} (l : list A) (body : A → M S unit)
    (body' : A → M S' unit) :
  (∀ x, simulates f (body x) (body' x)) →
  simulates f (for_each l body) (for_each l body').
Proof.
  intros Hbody. induction l as [|x l IH]; cbn [for_each].
  - apply simulates_ret.
  - apply simulates_bind; [apply Hbody|]. intros _. apply IH.
Qed.
End simulation.

Lemma add_vertex_simulates v :
  simulates to_reorganized (Refined.add_vertex v) (Reorganized.add_vertex v).
Proof.
  intros g. unfold Refined.add_vertex, Reorganized.add_vertex, bind, get. simpl.
  by destruct (dict_mem v (adjacency_list g)).
Qed.

Lemma guarded_add_vertex_simulates v :
  simulates to_reorganized
    (self <- get ;;
     if negb (dict_mem v (Refined.adjacency_list self))
     then Refined.add_vertex v else ret tt)
    (self <- get ;;
     if negb (dict_mem v (Reorganized.adjacency_list self))
     then Reorganized.add_vertex v else ret tt).
Proof.
  intros g. unfold bind, get.
  cbn [Reorganized.adjacency_list to_reorganized].
  destruct (dict_mem v (adjacency_list g)); cbn [negb].
  - done.
  - apply add_vertex_simulates.
Qed.

Lemma append_successor_simulates u v :
  simulates to_reorganized
    (Refined.append_successor u v) (Reorganized.append_successor u v).
Proof.
  intros g. unfold Refined.append_successor, Reorganized.append_successor, bind, get.
  simpl. by destruct (dict_get u (adjacency_list g)).
Qed.

Lemma add_edge_simulates u v :
  simulates to_reorganized (Refined.add_edge u v) (Reorganized.add_edge u v).
Proof.
  unfold Refined.add_edge, Reorganized.add_edge.
  apply simulates_bind; [apply guarded_add_vertex_simulates|]. intros _.
  apply simulates_bind; [apply guarded_add_vertex_simulates|]. intros _.
  apply append_successor_simulates.
Qed.

Lemma read_visit_state_simulates v :
  simulates to_reorganized_activation
    (Refined.read_visit_state v) (Reorganized.read_visit_state v).
Proof.
  intros a. unfold Refined.read_visit_state, Reorganized.read_visit_state. simpl.
  by destruct (visit_state a !! v).
Qed.

Lemma read_successors_simulates v :
  simulates to_reorganized_activation
    (Refined.read_successors v) (Reorganized.read_successors v).
Proof.
  intros a. unfold Refined.read_successors, Reorganized.read_successors. simpl.
  by destruct (dict_get v (adjacency_list (self a))).
Qed.

Lemma dfs_simulates n : ∀ v,
  simulates to_reorganized_activation (Refined.dfs n v) (Reorganized.dfs n v).
Proof.
  induction n as [|n IH]; intros v; cbn [Refined.dfs Reorganized.dfs]; [done|].
  apply simulates_bind; [apply read_visit_state_simulates|]. intros c.
  destruct (decide (c = 1)); [done|].
  apply simulates_bind; [apply read_visit_state_simulates|]. intros c'.
  destruct (decide (c' = 2)); [done|].
  apply simulates_bind; [done|]. intros _.
  apply simulates_bind.
  { apply simulates_bind; [apply read_successors_simulates|]. intros l.
    by apply simulates_for_each. }
  intros _. apply simulates_bind; [done|]. intros _. done.
Qed.

Lemma traverse_simulates n :
  simulates to_reorganized_activation (Refined.traverse n) (Reorganized.traverse n).
Proof.
  intros a.
  change (Reorganized.traverse n (to_reorganized_activation a))
    with (for_each (vertices (self a))
            (λ vertex, c <- Reorganized.read_visit_state vertex ;;
               if decide (c = 0) then Reorganized.dfs n vertex else ret tt)
            (to_reorganized_activation a)).
  rewrite traverse_unfold. apply simulates_for_each. intros x.
  apply simulates_bind; [apply read_visit_state_simulates|]. intros c.
  destruct (decide (c = 0)); [apply dfs_simulates|done].
Qed.

Lemma topological_sort_simulates depth :
  simulates to_reorganized
    (Refined.topological_sort depth) (Reorganized.topological_sort depth).
Proof.
  intros g.
  unfold Refined.topological_sort, Reorganized.topological_sort.
  change (Reorganized.enter (to_reorganized g))
    with (to_reorganized_activation (enter g)).
  rewrite traverse_simulates.
  by destruct (traverse _ _) as [[[] a]| |].
Qed.

Lemma serve_simulates depth r :
  simulates to_reorganized (serve_refined depth r) (serve_reorganized depth r).
Proof.
  destruct r as [v|u v|]; simpl.
  - apply simulates_bind; [apply add_vertex_simulates|done].
  - apply simulates_bind; [apply add_edge_simulates|done].
  - apply simulates_bind; [apply topological_sort_simulates|done].
Qed.

(** C10 (the two files implement the same ADT). Whatever the sequence of
    [add_vertex], [add_edge] and [topological_sort] calls, and from
    whatever common adjacency mapping, the class of [Reorganized_Project2.py]
    returns what the class of [Project2_Refined.py] returns, call by call,
    fails where it fails, and ends with the same adjacency mapping, under
    any depth of recursion that the interpreter allows. *)
Theorem classes_agree depth requests g :
  session (serve_reorganized depth) requests (to_reorganized g)
    = outcome_state to_reorganized (session (serve_refined depth) requests g) ∧
  Reorganized.adjacency_list (to_reorganized g) = Refined.adjacency_list g ∧
  to_reorganized Refined.init = Reorganized.init.
Proof.
  split; [|done]. revert g.
  induction requests as [|r rest IH]; cbn [session].
  - done.
  - change (simulates to_reorganized
              (x <- serve_refined depth r ;;
               xs <- session (serve_refined depth) rest ;; ret (x :: xs))
              (x <- serve_reorganized depth r ;;
               xs <- session (serve_reorganized depth) rest ;; ret (x :: xs))).
    apply simulates_bind; [apply serve_simulates|]. intros x.
    apply simulates_bind; [exact IH|done].
Qed.

Lemma classes_agree_witness :
  session (serve_reorganized 1000)
    [CallAddEdge "A" "B"; CallAddEdge "B" "C"; CallTopologicalSort]%string
    Reorganized.init
  = Ok ([None; None; Some ["A"; "B"; "C"]]%string,
        Reorganized.mkGraph [("A", ["B"]); ("B", ["C"]); ("C", [])]%string).
Proof.
  exact (proj1 (classes_agree 1000
    [CallAddEdge "A" "B"; CallAddEdge "B" "C"; CallTopologicalSort]%string
    Refined.init)).
Defined.

(** ** The cycle flag is sound *)

(** X1 (the cycle flag is sound). On any adjacency mapping, and whatever
    depth of recursion the interpreter allows, when [topological_sort] takes
    the failure return, the stored edges do contain a directed cycle: the
    call never reports a cycle that is not there. *)
Theorem failure_has_cycle depth g : returns_failure depth g → has_cycle g.
Proof.
  intros (a & Hfin & Hdag). by apply (traverse_flag_cycle _ g a Hfin).
Qed.

Lemma two_cycle_fails : returns_failure 1000 two_cycle.
Proof. eexists. split; [vm_compute; reflexivity|reflexivity]. Defined.

Lemma failure_has_cycle_witness : has_cycle two_cycle.
Proof. exact (failure_has_cycle 1000 two_cycle two_cycle_fails). Defined.




(** ** A successor that is no key *)

Section exploration.
Variable g : Graph.

Lemma explored_enter : explored g (enter g).
Proof.
  split; cbn [self visit_state enter].
  - done.
  - intros v. rewrite fresh_visit_state_lookup.
    destruct (decide (v ∈ vertices g)); [done|]. by intros [? ?].
  - intros v c. rewrite fresh_visit_state_lookup.
    destruct (decide (v ∈ vertices g)); [|done]. intros [= <-]. lia.
  - intros u. rewrite fresh_visit_state_lookup.
    by destruct (decide (u ∈ vertices g)).
Qed.

Lemma explored_marked a v c :
  explored g a → is_Some (visit_state a !! v) → c ≤ 1 →
  explored g (marked v c a).
Proof.
  intros [Hs Hdom Hrange Hdone] Hv Hc. split; simpl.
  - done.
  - intros u. destruct (decide (u = v)) as [->|Hne].
    + intros _. by apply Hdom.
    + rewrite lookup_insert_ne by done. apply Hdom.
  - intros u c'. destruct (decide (u = v)) as [->|Hne].
    + rewrite lookup_insert_eq. intros [= <-]. lia.
    + rewrite lookup_insert_ne by done. apply Hrange.
  - intros u. destruct (decide (u = v)) as [->|Hne].
    + rewrite lookup_insert_eq. intros [= ->]. lia.
    + rewrite lookup_insert_ne by done. apply Hdone.
Qed.

(** A completed call of [dfs] found its vertex among the marked ones and,
    unless that vertex was in progress, left it finished. *)
Lemma dfs_explored n : ∀ v a a',
  explored g a → dfs n v a = Ok (tt, a') →
  explored g a' ∧ is_Some (visit_state a !! v) ∧
  (visit_state a !! v ≠ Some 1 → visit_state a' !! v = Some 2).
Proof.
  induction n as [|n IH]; intros v a a' Hexp; [done|].
  rewrite dfs_unfold.
  destruct (visit_state a !! v) as [c|] eqn:Hc; [|done].
  destruct (decide (c = 1)) as [->|Hn1].
  { intros [= <-]. split_and!; [|by eexists|done].
    destruct Hexp. by split. }
  destruct (decide (c = 2)) as [->|Hn2].
  { intros [= <-]. split_and!; [done|by eexists|done]. }
  rewrite (exp_self g a Hexp).
  destruct (dict_get v (adjacency_list g)) as [successors|] eqn:Hsucc; [|done].
  destruct (for_each successors (dfs n) (marked v 1 a)) as [[[] ak]| |] eqn:Hloop;
    [|done..].
  intros [= <-].
  assert (Hgen : ∀ l a1 a2,
    explored g a1 → for_each l (dfs n) a1 = Ok (tt, a2) →
    explored g a2 ∧ extends a1 a2 ∧ ∀ x, x ∈ l → is_Some (visit_state a2 !! x)).
  { induction l as [|x l IHl]; intros a1 a2 Hexp1; cbn [for_each].
    - intros [= <-]. split_and!; [done..|]. by intros x ?%elem_of_nil.
    - intros ([] & a1' & Hx & Hrest)%bind_Ok.
      destruct (IH x a1 a1' Hexp1 Hx) as (Hexp1' & [cx Hcx] & _).
      pose proof (dfs_extends n x a1 a1' Hx) as Hext.
      destruct (IHl a1' a2 Hexp1' Hrest) as (Hexp2 & Hext' & Hl).
      split_and!; [done|by transitivity a1'|].
      intros y [->|Hy]%elem_of_cons; [|by apply Hl].
      destruct (ext_state a1 a2 (transitivity Hext Hext') x) as [Heq|[Hb _]].
      + rewrite Heq, Hcx. by eexists.
      + rewrite Hb. by eexists. }
  assert (Hv : is_Some (visit_state a !! v)) by (by eexists).
  destruct (Hgen successors (marked v 1 a) ak) as (Hexpk & Hextk & Hl);
    [by apply explored_marked|done|].
  split_and!; [|done|].
  - destruct Hexpk as [Hs Hdom Hrange Hdone]. split; simpl.
    + done.
    + intros u. destruct (decide (u = v)) as [->|Hne].
      * intros _. by apply (exp_dom g a Hexp).
      * rewrite lookup_insert_ne by done. apply Hdom.
    + intros u c'. destruct (decide (u = v)) as [->|Hne].
      * rewrite lookup_insert_eq. intros [= <-]. lia.
      * rewrite lookup_insert_ne by done. apply Hrange.
    + intros u. destruct (decide (u = v)) as [->|Hne].
      * intros _ w Hw. apply Hdom, Hl.
        by apply (edge_successors g v w successors).
      * rewrite lookup_insert_ne by done. apply Hdone.
  - intros _. simpl. apply lookup_insert_eq.
Qed.

(** When the loop of [topological_sort] completes, every successor in the
    mapping is a key. *)
Lemma traverse_completes_closed n a :
  traverse n (enter g) = Ok (tt, a) → closed g.
Proof.
  rewrite traverse_unfold. cbn [self enter].
  assert (Hgen : ∀ l a1 a2,
    explored g a1 → (∀ w, visit_state a1 !! w ≠ Some 1) →
    for_each l (visit n) a1 = Ok (tt, a2) →
    explored g a2 ∧ ∀ x, x ∈ l → visit_state a2 !! x = Some 2).
  { induction l as [|x l IHl]; intros a1 a2 Hexp1 Hgrey; cbn [for_each].
    - intros [= <-]. split; [done|]. by intros x ?%elem_of_nil.
    - intros ([] & a1' & Hx & Hrest)%bind_Ok.
      pose proof (visit_extends n x a1 a1' Hx) as Hext.
      assert (Hx' : explored g a1' ∧ visit_state a1' !! x = Some 2).
      { revert Hx. rewrite visit_unfold.
        destruct (visit_state a1 !! x) as [c|] eqn:Hc; [|done].
        destruct (decide (c = 0)) as [->|Hn0].
        - intros Hx. destruct (dfs_explored n x a1 a1' Hexp1 Hx) as (? & _ & Hb).
          split; [done|]. apply Hb. by rewrite Hc.
        - intros [= <-]. split; [done|].
          pose proof (exp_range g a1 Hexp1 x c Hc). pose proof (Hgrey x).
          assert (c = 2) as -> by (destruct (decide (c = 1)); [congruence|lia]).
          done. }
      destruct Hx' as [Hexp1' Hxb].
      destruct (IHl a1' a2) as (Hexp2 & Hl); [done| |done|].
      { intros w. rewrite (extends_in_progress a1 a1' w Hext). apply Hgrey. }
      assert (Hext' : extends a1' a2).
      { apply (for_each_preorder extends l (visit n)); [|done].
        intros ? ? ? _. apply visit_extends. }
      split; [done|]. intros y [->|Hy]%elem_of_cons; [|by apply Hl].
      by apply (extends_done a1' a2 x Hext'). }
  intros Hrun.
  destruct (Hgen (vertices g) (enter g) a) as (Hexp & Hall); [| |done|].
  - apply explored_enter.
  - cbn [visit_state enter]. intros w. rewrite fresh_visit_state_lookup.
    by destruct (decide _).
  - intros u v Hedge. apply (exp_done g a Hexp u); [|done].
    apply Hall. by eapply edge_source.
Qed.
End exploration.

(** X3 (a missing key). On an adjacency mapping in which some successor
    list names a vertex that is no key, [topological_sort] never returns: it
    raises [KeyError], or [RecursionError] if the interpreter runs out of
    depth before the missing key is met, and it is [KeyError] whenever the
    interpreter allows more nested calls than the mapping has keys.
    [KeyError] is raised on such mappings only; they cannot come from
    [add_vertex] and [add_edge], only from writing to [adjacency_list] by
    hand. *)
Theorem dangling_successor_KeyError depth g :
  (∀ u v, edge g u v → v ∉ vertices g →
     (topological_sort depth g = KeyError ∨
      topological_sort depth g = RecursionError) ∧
     (length (adjacency_list g) < depth → topological_sort depth g = KeyError)) ∧
  (topological_sort depth g = KeyError → ¬ closed g) ∧
  (built g → topological_sort depth g ≠ KeyError).
Proof.
  assert (Hclosed : closed g → topological_sort depth g ≠ KeyError).
  { intros Hcl. unfold topological_sort.
    destruct (final_outcome depth g Hcl) as [Hrec|(a & Hfin & _)];
      unfold final in *.
    - by rewrite Hrec.
    - by rewrite Hfin. }
  split_and!.
  - intros u v Hedge Hv.
    pose proof (traverse_completes_closed g depth) as Hcl.
    pose proof (traverse_within_budget depth g) as Hbudget.
    unfold topological_sort.
    destruct (traverse depth (enter g)) as [[[] a]| |].
    + destruct Hv. by apply (Hcl a eq_refl u v).
    + split; [by left|done].
    + split; [by right|]. intros Hdepth. by destruct (Hbudget Hdepth).
  - intros Hkey Hcl. by apply Hclosed.
  - intros Hwf%built_well_formed. apply Hclosed, (wf_closed g Hwf).
Qed.

Lemma dangling_successor_KeyError_witness :
  topological_sort 1000 dangling = KeyError.
Proof.
  apply (proj1 (dangling_successor_KeyError 1000 dangling) "A" "B")%string.
  - exists ["B"]%string. split; [reflexivity|]. apply list_elem_of_here.
  - vm_compute. intros H. inversion H as [|? ? ? H']; inversion H'.
  - simpl. lia.
Defined.

(** ** What the calls leave in the mapping *)

Lemma successors_of_edge g u v : edge g u v ↔ v ∈ successors_of u g.
Proof.
  unfold edge, successors_of. split.
  - intros (s & -> & Hv). done.
  - destruct (dict_get u (adjacency_list g)) as [s|]; simpl.
    + intros Hv. by exists s.
    + by intros ?%elem_of_nil.
Qed.

Lemma add_vertex_vertices v g g' :
  add_vertex v g = Ok (tt, g') → vertices g' = note (vertices g) v.
Proof.
  rewrite add_vertex_run. intros [= <-]. unfold vertices, note. simpl.
  rewrite ensured_keys. destruct (decide _); [by rewrite app_nil_r|done].
Qed.

Lemma add_vertex_successors v g g' w :
  add_vertex v g = Ok (tt, g') → successors_of w g' = successors_of w g.
Proof.
  rewrite add_vertex_run. intros [= <-]. unfold successors_of. simpl.
  rewrite ensured_get.
  destruct (decide (w ∈ dict_keys (adjacency_list g))) as [Hw|Hw]; [done|].
  rewrite (proj2 (dict_get_None w _) Hw). by destruct (decide (w = v)).
Qed.

Lemma perform_vertices c g g' :
  perform c g = Ok (tt, g') → vertices g' = foldl note (vertices g) (mentions c).
Proof.
  destruct c as [v|u v]; simpl.
  - apply add_vertex_vertices.
  - intros ->%add_edge_vertices. unfold note.
    destruct (decide (u ∈ vertices g)) as [Hu|Hu].
    + rewrite app_nil_l.
      destruct (decide (v ∈ vertices g)) as [Hv|Hv].
      * rewrite decide_True by (by left). by rewrite app_nil_r.
      * destruct (decide (v = u)) as [->|Hne]; [done|].
        rewrite decide_False; [done|]. by intros [?|?].
    + destruct (decide (v ∈ vertices g ∨ v = u)) as [Hv|Hv].
      * rewrite decide_True; [by rewrite app_nil_r|].
        apply elem_of_app. destruct Hv as [?| ->]; [by left|right; by left].
      * rewrite decide_False; [by rewrite app_assoc|].
        intros [?|[?|?%elem_of_nil]%elem_of_cons]%elem_of_app; [|by destruct Hv; right|done].
        destruct Hv. by left.
Qed.

Lemma perform_successors c g g' w :
  perform c g = Ok (tt, g') →
  successors_of w g' = successors_of w g ++ targets w [c].
Proof.
  destruct c as [v|u v]; simpl.
  - intros Hrun. rewrite app_nil_r. by eapply add_vertex_successors.
  - intros Hrun. destruct (decide (u = w)) as [->|Hne].
    + unfold successors_of at 1. by rewrite (add_edge_source w v g g' Hrun).
    + rewrite app_nil_r. unfold successors_of.
      rewrite (add_edge_others u v g g' w Hrun) by done.
      destruct (decide (w ∈ vertices g)) as [Hw|Hw]; [done|].
      rewrite (proj2 (dict_get_None w _) Hw). by destruct (decide (w = v)).
Qed.

Lemma targets_app u l1 l2 : targets u (l1 ++ l2) = targets u l1 ++ targets u l2.
Proof.
  induction l1 as [|[v|u' v] l1 IH]; simpl; [done..|].
  destruct (decide (u' = u)); [|done]. by rewrite IH.
Qed.

Lemma targets_elem u v calls : v ∈ targets u calls ↔ AddEdge u v ∈ calls.
Proof.
  induction calls as [|[w|u' w] calls IH]; simpl.
  - split; by intros ?%elem_of_nil.
  - rewrite IH, elem_of_cons. split; [by right|]. by intros [?|?].
  - rewrite (elem_of_cons calls). destruct (decide (u' = u)) as [->|Hne].
    + rewrite elem_of_cons, IH. split.
      * intros [->|?]; [by left|by right].
      * intros [[= ->]|?]; [by left|by right].
    + rewrite IH. split; [by right|]. intros [[= ? ?]|?]; done.
Qed.

Lemma calls_content calls : ∀ g g',
  for_each calls perform g = Ok (tt, g') →
  vertices g' = foldl note (vertices g) (calls ≫= mentions) ∧
  ∀ u, successors_of u g' = successors_of u g ++ targets u calls.
Proof.
  induction calls as [|c calls IH]; intros g g'; cbn [for_each].
  - intros [= <-]. split; [done|]. intros u. by rewrite app_nil_r.
  - intros ([] & g1 & H1 & H2)%bind_Ok.
    destruct (IH g1 g' H2) as (Hkeys & Hsucc). split.
    + rewrite Hkeys, (perform_vertices c g g1 H1).
      change ((c :: calls) ≫= mentions) with (mentions c ++ (calls ≫= mentions)).
      by rewrite foldl_app.
    + intros u. rewrite Hsucc, (perform_successors c g g1 u H1), <- app_assoc.
      by rewrite <- (targets_app u [c] calls).
Qed.

Lemma calls_content_init calls g :
  for_each calls perform init = Ok (tt, g) →
  vertices g = foldl note [] (calls ≫= mentions) ∧
  (∀ u, successors_of u g = targets u calls) ∧
  (∀ u v, edge g u v ↔ AddEdge u v ∈ calls).
Proof.
  intros Hcalls.
  destruct (calls_content calls init g Hcalls) as (Hkeys & Hsucc).
  assert (Hsucc' : ∀ u, successors_of u g = targets u calls)
    by (intros u; by rewrite Hsucc).
  split_and!; [done..|].
  intros u v. by rewrite successors_of_edge, Hsucc', targets_elem.
Qed.

(** X4 (the mapping holds what the calls put in). Any sequence of
    [add_vertex] and [add_edge] calls on a new object leaves a mapping whose
    keys are the vertices the calls name, each once, in the order of their
    first mention, and in which the successor list of a vertex is the list of
    the targets of the [add_edge] calls from it, in call order, repeated
    calls included. *)
Theorem mapping_of_calls calls :
  ∃ g, for_each calls perform init = Ok (tt, g) ∧
    vertices g = foldl note [] (calls ≫= mentions) ∧
    (∀ u, successors_of u g = targets u calls) ∧
    (∀ u v, edge g u v ↔ AddEdge u v ∈ calls).
Proof.
  destruct (calls_total calls init) as [g Hcalls]. exists g.
  split; [done|]. by apply calls_content_init.
Qed.

(** X5 (the contract of [add_vertex]). [add_vertex] never fails. On a vertex
    that is a key it changes nothing, so the successors stored for that
    vertex are kept; a new vertex becomes the last key, with no successor;
    no other entry changes; a second call changes nothing more. *)
Theorem add_vertex_contract v g :
  ∃ g', add_vertex v g = Ok (tt, g') ∧
    (v ∈ vertices g → g' = g) ∧
    (v ∉ vertices g → adjacency_list g' = adjacency_list g ++ [(v, [])]) ∧
    (∀ w, w ∈ vertices g →
       dict_get w (adjacency_list g') = dict_get w (adjacency_list g)) ∧
    add_vertex v g' = Ok (tt, g').
Proof.
  exists (mkGraph (ensured v (adjacency_list g))).
  split_and!.
  - apply add_vertex_run.
  - intros Hv. unfold ensured. rewrite decide_True by done. by destruct g.
  - intros Hv. unfold ensured. by rewrite decide_False.
  - intros w Hw. simpl. rewrite ensured_get. by rewrite decide_True.
  - rewrite add_vertex_run. simpl. unfold ensured at 1.
    by rewrite decide_True by apply ensured_elem.
Qed.

(** X6 (vertices without edges come out in reverse). On a mapping with
    distinct keys and no edge at all, [topological_sort] returns the keys in
    the reverse of their insertion order, as soon as the interpreter allows
    one call of [dfs]. *)
Theorem isolated_vertices_reversed depth g :
  NoDup (vertices g) → (∀ u v, ¬ edge g u v) → 0 < depth →
  returns_sequence depth g (rev (vertices g)) ∧
  topological_sort depth g = Ok (rev (vertices g), g).
Proof.
  intros Hnd Hnone Hdepth.
  destruct depth as [|depth]; [lia|].
  assert (Hgen : ∀ n l a,
    NoDup l → (∀ x, x ∈ l → x ∈ vertices g) → self a = g →
    (∀ x, x ∈ l → visit_state a !! x = Some 0) →
    ∃ a', for_each l (visit (S n)) a = Ok (tt, a') ∧ self a' = g ∧
          is_dag a' = is_dag a ∧
          topological_order a' = rev l ++ topological_order a).
  { intros n. induction l as [|x l IHl]; intros a Hndl Hl Hself Hwhite;
      cbn [for_each].
    - by exists a.
    - apply NoDup_cons in Hndl as [Hx Hndl].
      assert (Hvisit : visit (S n) x a = Ok (tt, finished x (marked x 1 a))).
      { rewrite visit_unfold, (Hwhite x) by left. rewrite decide_True by done.
        rewrite dfs_unfold, (Hwhite x) by left.
        rewrite decide_False by done. rewrite decide_False by done.
        rewrite Hself.
        destruct (proj2 (dict_get_is_Some x (adjacency_list g)) (Hl x ltac:(left)))
          as [successors Hsucc].
        rewrite Hsucc. destruct successors as [|y successors]; [done|].
        destruct (Hnone x y). exists (y :: successors). split; [done|by left]. }
      destruct (IHl (finished x (marked x 1 a))) as (a' & Hrun & Hs & Hd & Ho).
      + done.
      + intros y Hy. apply Hl. by right.
      + done.
      + intros y Hy. simpl.
        assert (y ≠ x) by (by intros ->).
        rewrite !lookup_insert_ne by done. apply Hwhite. by right.
      + exists a'. unfold bind. rewrite Hvisit. split_and!; try done.
        rewrite Ho. simpl. by rewrite <- app_assoc. }
  destruct (Hgen depth (vertices g) (enter g))
    as (a & Hrun & Hs & Hd & Ho); try done.
  { cbn [visit_state enter]. intros x Hx. rewrite fresh_visit_state_lookup.
    by rewrite decide_True. }
  assert (Hseq : returns_sequence (S depth) g (rev (vertices g))).
  { exists a. unfold final. rewrite traverse_unfold. cbn [self enter].
    split_and!; [done..|]. rewrite Ho. simpl. by rewrite app_nil_r. }
  split; [done|]. by apply returns_sequence_result.
Qed.

Lemma isolated_vertices_reversed_witness :
  returns_sequence 1 isolated ["C"; "B"; "A"]%string ∧
  topological_sort 1 isolated = Ok (["C"; "B"; "A"]%string, isolated).
Proof.
  apply (isolated_vertices_reversed 1 isolated).
  - refine (bool_decide_unpack _ _). vm_compute. exact I.
  - intros u v (s & Hs & Hv). cbn in Hs.
    repeat case_decide; simplify_eq; by apply elem_of_nil in Hv.
  - lia.
Defined.

Lemma mapping_of_calls_witness :
  ∃ g, for_each [AddEdge "A" "B"; AddEdge "A" "B"]%string perform init = Ok (tt, g) ∧
       vertices g = ["A"; "B"]%string ∧
       successors_of "A" g = ["B"; "B"]%string.
Proof.
  destruct (mapping_of_calls [AddEdge "A" "B"; AddEdge "A" "B"]%string)
    as (g & Hcalls & Hkeys & Hsucc & _).
  exists g. split_and!; [exact Hcalls|exact Hkeys|exact (Hsucc "A"%string)].
Defined.

Lemma add_vertex_contract_witness :
  ∃ g', add_vertex "A" chain = Ok (tt, g') ∧ g' = chain.
Proof.
  destruct (add_vertex_contract "A" chain) as (g' & Hrun & Hsame & _).
  exists g'. split; [exact Hrun|]. apply Hsame. apply list_elem_of_here.
Defined.

(** ** Building a graph from a table of prerequisites *)

Lemma for_each_app {S A} (l1 l2 : list A) (body : A → M S unit) s :
  for_each (l1 ++ l2) body s = (for_each l1 body ;;; for_each l2 body) s.
Proof.
  revert s. induction l1 as [|x l1 IH]; intros s; cbn [for_each app].
  - done.
  - unfold bind. destruct (body x s) as [[[] s1]| |]; [|done..].
    apply IH.
Qed.

Lemma for_each_fmap {S A B} (f : A → B) (l : list A) (body : B → M S unit) s :
  for_each (f <$> l) body s = for_each l (λ x, body (f x)) s.
Proof.
  revert s. induction l as [|x l IH]; intros s; cbn [for_each fmap list_fmap].
  - done.
  - apply bind_ext; [done|]. intros _ s1. apply IH.
Qed.

(** A loop in a loop runs its body on the elements of the inner sequences,
    one sequence after the other. *)
Lemma for_each_nested {S A B} (inner : A → list B) (l : list A)
    (body : B → M S unit) s :
  for_each (l ≫= inner) body s = for_each l (λ x, for_each (inner x) body) s.
Proof.
  revert s. induction l as [|x l IH]; intros s.
  - done.
  - change ((x :: l) ≫= inner) with (inner x ++ (l ≫= inner)).
    rewrite for_each_app. cbn [for_each].
    apply bind_ext; [done|]. intros _ s1. apply IH.
Qed.

Lemma build_from_calls table g :
  build_from table g = for_each (calls_of_table table) perform g.
Proof.
  unfold build_from, calls_of_table. rewrite for_each_app.
  apply bind_ext.
  - by rewrite for_each_fmap.
  - intros _ g1. rewrite for_each_nested.
    induction table as [|[course prereqs] table IH] in g1 |- *; cbn [for_each].
    + done.
    + apply bind_ext; [|intros _ g2; apply IH].
      by rewrite for_each_fmap.
Qed.

Lemma calls_of_table_edge table p c :
  AddEdge p c ∈ calls_of_table table ↔ ∃ ps, (c, ps) ∈ table ∧ p ∈ ps.
Proof.
  unfold calls_of_table. rewrite elem_of_app, list_elem_of_fmap, list_elem_of_bind.
  split.
  - intros [(? & [=] & _)|([c' ps] & Hin & Hrow)].
    apply list_elem_of_fmap in Hin as (p' & [= -> ->] & Hp'). by exists ps.
  - intros (ps & Hrow & Hp). right. exists (c, ps). split; [|done].
    apply list_elem_of_fmap. by exists p.
Qed.

Lemma foldl_note_elem l : ∀ acc v, v ∈ foldl note acc l ↔ v ∈ acc ∨ v ∈ l.
Proof.
  induction l as [|x l IH]; intros acc v; cbn [foldl].
  - rewrite elem_of_nil. split; [by left|by intros [?|[]]].
  - rewrite IH, elem_of_cons. unfold note.
    destruct (decide (x ∈ acc)) as [Hx|Hx].
    + split; [intros [?|?]; auto|]. intros [?|[->|?]]; auto.
    + rewrite elem_of_app, list_elem_of_singleton. tauto.
Qed.

Lemma foldl_note_prefix l : ∀ acc, acc `prefix_of` foldl note acc l.
Proof.
  induction l as [|x l IH]; intros acc; cbn [foldl]; [done|].
  transitivity (note acc x); [|apply IH]. unfold note.
  destruct (decide (x ∈ acc)); [done|]. by apply prefix_app_r.
Qed.

Lemma foldl_note_NoDup l : ∀ acc,
  NoDup (acc ++ l) → foldl note acc l = acc ++ l.
Proof.
  induction l as [|x l IH]; intros acc; cbn [foldl].
  - by rewrite app_nil_r.
  - intros Hnd. unfold note.
    assert (Hx : x ∉ acc).
    { apply NoDup_app in Hnd as (_ & Hdisj & _). intros Hx.
      apply (Hdisj x Hx). by left. }
    rewrite decide_False by done. rewrite IH; rewrite <- app_assoc; done.
Qed.

Lemma calls_of_table_mentions table v :
  v ∈ calls_of_table table ≫= mentions ↔
  v ∈ dict_keys table ∨ ∃ c ps, (c, ps) ∈ table ∧ (v = c ∨ v ∈ ps).
Proof.
  rewrite list_elem_of_bind. unfold calls_of_table. split.
  - intros (call & Hv & [Hcall|Hcall]%elem_of_app).
    + apply list_elem_of_fmap in Hcall as (k & -> & Hk).
      apply list_elem_of_singleton in Hv as ->. by left.
    + apply list_elem_of_bind in Hcall as ([c ps] & Hcall & Hrow).
      apply list_elem_of_fmap in Hcall as (p & -> & Hp). right. exists c, ps.
      split; [done|]. simpl in Hv.
      apply elem_of_cons in Hv as [->|Hv]; [by right|].
      apply list_elem_of_singleton in Hv as ->. by left.
  - intros [Hk|(c & ps & Hrow & [->|Hp])].
    + exists (AddVertex v). split; [by left|]. apply elem_of_app. left.
      apply list_elem_of_fmap. by exists v.
    + exists (AddVertex c). split; [by left|]. apply elem_of_app. left.
      apply list_elem_of_fmap. exists c. split; [done|].
      unfold dict_keys. apply list_elem_of_fmap. by exists (c, ps).
    + exists (AddEdge v c). split; [by left|]. apply elem_of_app. right.
      apply list_elem_of_bind. exists (c, ps). split; [|done].
      apply list_elem_of_fmap. by exists v.
Qed.

Lemma add_vertex_mentions (l : list Vertex) :
  (AddVertex <$> l) ≫= mentions = l.
Proof. induction l as [|k l IH]; csimpl; [done|]. by rewrite IH. Qed.

(** X7 (the graph of a table). For any table of prerequisites, the loops of
    [build_cs_major_graph] complete and leave a graph that holds an edge
    from [p] to [c] exactly when the table lists [p] among the requirements
    of [c]; its vertices are the courses of the table and the courses they
    require; and when the courses of the table are distinct, they are the
    first keys, in the order of the table. *)
Theorem build_from_table table :
  ∃ g, build_from table init = Ok (tt, g) ∧ built g ∧
    (∀ p c, edge g p c ↔ ∃ ps, (c, ps) ∈ table ∧ p ∈ ps) ∧
    (∀ v, v ∈ vertices g ↔
          v ∈ dict_keys table ∨ ∃ c ps, (c, ps) ∈ table ∧ v ∈ ps) ∧
    (NoDup (dict_keys table) → dict_keys table `prefix_of` vertices g).
Proof.
  destruct (calls_total (calls_of_table table) init) as [g Hcalls].
  destruct (calls_content_init (calls_of_table table) g Hcalls)
    as (Hkeys & _ & Hedge).
  exists g. split_and!.
  - by rewrite build_from_calls.
  - by exists (calls_of_table table).
  - intros p c. by rewrite Hedge, calls_of_table_edge.
  - intros v. rewrite Hkeys, foldl_note_elem, calls_of_table_mentions, elem_of_nil.
    split.
    + intros [[]|[?|(c & ps & Hrow & [->|Hp])]]; [by left| |by right; exists c, ps].
      left. unfold dict_keys. apply list_elem_of_fmap. by exists (c, ps).
    + intros [?|(c & ps & Hrow & Hp)]; right; [by left|].
      right. exists c, ps. split; [done|by right].
  - intros Hnd. rewrite Hkeys. unfold calls_of_table.
    rewrite bind_app, foldl_app.
    assert (Hfirst : foldl note [] ((AddVertex <$> dict_keys table) ≫= mentions)
                     = dict_keys table).
    { rewrite add_vertex_mentions. by rewrite foldl_note_NoDup. }
    rewrite Hfirst. apply foldl_note_prefix.
Qed.

Lemma build_from_table_witness :
  ∃ g, build_from prerequisites init = Ok (tt, g) ∧
       dict_keys prerequisites `prefix_of` vertices g ∧
       edge g "CS 1411" "CS 1412".
Proof.
  destruct (build_from_table prerequisites) as (g & Hbuild & _ & Hedge & _ & Hprefix).
  exists g. split_and!; [exact Hbuild| |].
  - apply Hprefix. refine (bool_decide_unpack _ _). vm_compute. exact I.
  - apply Hedge. exists ["CS 1411"]%string. split; [|apply list_elem_of_here].
    unfold prerequisites. do 3 apply list_elem_of_further. apply list_elem_of_here.
Defined.

Lemma cs_graph_built : build_from prerequisites init = Ok (tt, cs_graph).
Proof. vm_compute. reflexivity. Defined.

Lemma cs_graph_sorted :
  topological_sort 1000 cs_graph = Ok (cs_order, cs_graph).
Proof. vm_compute. reflexivity. Defined.

Lemma cs_order_not_empty : cs_order ≠ [] ∨ ¬ has_cycle cs_graph.
Proof. left. discriminate. Defined.

(** X8 (requirements come first). For any table of prerequisites, and
    whatever depth of recursion the interpreter allows, when what
    [topological_sort] returns for the graph that the loops of
    [build_cs_major_graph] make of the table is a success sequence (the
    returned list is not empty, or the graph has no cycle), the returned list
    holds every course of the table, none twice, and every course after each
    of the courses that the table says it requires. *)
Theorem prerequisites_first depth table g order g' :
  build_from table init = Ok (tt, g) →
  topological_sort depth g = Ok (order, g') →
  order ≠ [] ∨ ¬ has_cycle g →
  NoDup order ∧
  (∀ c, c ∈ dict_keys table → c ∈ order) ∧
  (∀ c ps p, (c, ps) ∈ table → p ∈ ps →
     ∃ i j, index p order = Some i ∧ index c order = Some j ∧ i < j).
Proof.
  rewrite build_from_calls. intros Hcalls Hrun Hsuccess.
  assert (Hbuilt : built g) by (by exists (calls_of_table table)).
  pose proof (built_well_formed g Hbuilt) as Hwf.
  destruct (calls_content_init (calls_of_table table) g Hcalls)
    as (Hkeys & _ & Hedge).
  pose proof (result_is_sequence depth g order g' Hrun Hsuccess) as Hseq.
  destruct (returns_sequence_facts depth g order (wf_closed g Hwf) Hseq)
    as (Hnd & Hall & Hsorted).
  split_and!.
  - done.
  - intros c Hc. apply Hall. rewrite Hkeys, foldl_note_elem. right.
    apply calls_of_table_mentions. by left.
  - intros c ps p Hrow Hp.
    assert (Hpc : edge g p c).
    { apply Hedge, calls_of_table_edge. by exists ps. }
    apply (sorted_ranks g order p c Hnd Hsorted); [|done].
    apply Hall. by eapply edge_source.
Qed.

Lemma prerequisites_first_witness :
  NoDup cs_order ∧
  (∀ c, c ∈ dict_keys prerequisites → c ∈ cs_order) ∧
  (∀ c ps p, (c, ps) ∈ prerequisites → p ∈ ps →
     ∃ i j, index p cs_order = Some i ∧ index c cs_order = Some j ∧ i < j).
Proof.
  exact (prerequisites_first 1000 prerequisites cs_graph cs_order cs_graph
           cs_graph_built cs_graph_sorted cs_order_not_empty).
Defined.

(** The sixth scenario of the specification: the table of the program gives
    a sequence of its 29 courses. *)
Example cs_order_length :
  build_cs_major_graph = Ok cs_graph ∧
  topological_sort 1000 cs_graph = Ok (cs_order, cs_graph) ∧
  length cs_order = 29.
Proof. split_and!; vm_compute; reflexivity. Qed.

(** ** Printing the order *)

Lemma starts_with_newline_app s t :
  starts_with_newline s → starts_with_newline (s +:+ t).
Proof. by destruct s. Qed.

Lemma display_entries_starts k : ∀ order i stdout stdout',
  starts_with_newline stdout →
  display_entries i order k stdout = Returned stdout' →
  starts_with_newline stdout'.
Proof.
  induction order as [|course rest IH]; intros i stdout stdout' Hstart;
    cbn [display_entries].
  - by intros [= <-].
  - destruct (decide (0 < i)).
    + destruct (decide (k = 0%Z)); [done|].
      apply IH. unfold print. apply starts_with_newline_app.
      destruct (decide _); [|done]. by apply starts_with_newline_app.
    + apply IH. unfold print. by apply starts_with_newline_app.
Qed.

(** Only an empty [order] gets the report of a cycle. *)
Lemma display_cycle_report order k :
  display_topological_order order k = Returned cycle_report ↔ order = [].
Proof.
  unfold display_topological_order. destruct (decide (order = [])) as [->|Hne].
  { done. }
  split; [|done].
  destruct (display_entries 0 order k _) as [stdout|stdout] eqn:Hrows; [|done].
  apply display_entries_starts in Hrows; [|done].
  intros [= Heq]. exfalso. unfold print in Heq.
  destruct stdout as [|c stdout]; [done|]. simpl in Hrows. subst c.
  by vm_compute in Heq.
Qed.

(** What [topological_sort] returns is empty exactly on a cycle and on the
    graph with no vertex. *)
Lemma empty_result depth g order g' :
  built g → topological_sort depth g = Ok (order, g') →
  order = [] ↔ has_cycle g ∨ vertices g = [].
Proof.
  intros Hwf%built_well_formed Hrun.
  pose proof (wf_closed g Hwf) as Hclosed.
  destruct (topological_sort_inv depth g order g' Hrun) as (a & Hfin & Hres & _).
  destruct (is_dag a) eqn:Hdag.
  - assert (Hseq : returns_sequence depth g order).
    { exists a. unfold result_of in Hres. rewrite Hdag in Hres. done. }
    destruct (returns_sequence_facts depth g order Hclosed Hseq) as (_ & Hall & _).
    split.
    + intros ->. right. destruct (vertices g) as [|x l]; [done|].
      exfalso. apply (elem_of_nil x), Hall. by left.
    + intros [Hcycle|Hnil].
      * by destruct (cycle_no_sequence depth g order Hclosed Hcycle).
      * rewrite Hnil in Hall. destruct order as [|x l]; [done|].
        exfalso. apply (elem_of_nil x), Hall. by left.
  - unfold result_of in Hres. rewrite Hdag in Hres. simpl in Hres.
    split; [|done]. intros _. left. by apply (traverse_flag_cycle depth g a).
Qed.

(** X9 (when the cycle error is printed). Printing what [topological_sort]
    returned for a built graph, as [main] does, prints the report of a cycle,
    and nothing else, exactly when the graph has a directed cycle or has no
    vertex at all: the empty graph is reported as cyclic. *)
Theorem cycle_report_printed depth g order g' courses_per_line :
  built g → topological_sort depth g = Ok (order, g') →
  display_topological_order order courses_per_line = Returned cycle_report ↔
  has_cycle g ∨ vertices g = [].
Proof.
  intros Hbuilt Hrun.
  rewrite display_cycle_report. by apply (empty_result depth g order g').
Qed.

Lemma cycle_report_printed_witness :
  display_topological_order [] 4 = Returned cycle_report ↔
  has_cycle init ∨ vertices init = [].
Proof.
  apply (cycle_report_printed 1000 init [] init 4); [|reflexivity].
  exists []. reflexivity.
Defined.

Lemma display_entries_zero_division k : ∀ order i stdout,
  0 < i →
  (∃ stdout', display_entries i order k stdout = ZeroDivisionError stdout') ↔
  k = 0%Z ∧ order ≠ [].
Proof.
  induction order as [|course rest IH]; intros i stdout Hi; cbn [display_entries].
  - split; [by intros [? ?]|by intros [_ ?]].
  - rewrite decide_True by done. destruct (decide (k = 0%Z)) as [->|Hk].
    + split; [done|]. intros _. by eexists.
    + rewrite IH by lia. split; [by intros [? _]|by intros [? _]].
Qed.

(** X10 (division by zero in the layout). [display_topological_order] ends
    in [ZeroDivisionError] exactly when [courses_per_line] is [0] and [order]
    has two courses or more; the heading and the first entry are then on the
    standard output already. With one course, or with none, [0] does no
    harm. *)
Theorem display_zero_division order courses_per_line :
  (∃ stdout, display_topological_order order courses_per_line
             = ZeroDivisionError stdout) ↔
  courses_per_line = 0%Z ∧ 2 ≤ length order.
Proof.
  unfold display_topological_order.
  destruct (decide (order = [])) as [->|Hne].
  { split; [by intros [? ?]|simpl; lia]. }
  destruct order as [|course rest]; [done|]. cbn [display_entries].
  rewrite decide_False by lia.
  match goal with |- context [display_entries 1 rest _ ?out] =>
    pose proof (display_entries_zero_division courses_per_line rest 1 out
                  ltac:(lia)) as Hrest;
    destruct (display_entries 1 rest courses_per_line out) as [s|s] eqn:Hrows
  end.
  - split; [by intros [? ?]|]. intros [Hk Hlen].
    destruct (proj2 Hrest) as [? ?]; [|done].
    split; [done|]. destruct rest; [simpl in Hlen; lia|done].
  - split; [|by eexists]. intros _.
    destruct (proj1 Hrest) as [Hk Hrest']; [by eexists|].
    split; [done|]. destruct rest; [done|simpl; lia].
Qed.

Lemma display_zero_division_witness :
  ∃ stdout, display_topological_order ["A"; "B"]%string 0 = ZeroDivisionError stdout.
Proof.
  apply (proj2 (display_zero_division ["A"; "B"]%string 0)).
  split; [reflexivity|simpl; lia].
Defined.

(** ** The layout of the printed order *)

Lemma string_app_cons (x : ascii) (a b : string) :
  String x a +:+ b = String x (a +:+ b).
Proof. reflexivity. Qed.

Lemma string_app_empty_l (a : string) : "" +:+ a = a.
Proof. reflexivity. Qed.

Lemma string_app_assoc (a b c : string) : (a +:+ b) +:+ c = a +:+ (b +:+ c).
Proof.
  induction a as [|x a IH]; [done|]. rewrite !string_app_cons. f_equal. apply IH.
Qed.

Lemma string_app_empty_r (a : string) : a +:+ "" = a.
Proof.
  induction a as [|x a IH]; [done|]. rewrite string_app_cons. f_equal. apply IH.
Qed.

Lemma string_length_app (a b : string) :
  String.length (a +:+ b) = String.length a + String.length b.
Proof.
  induction a as [|x a IH]; [done|]. rewrite string_app_cons. simpl.
  f_equal. apply IH.
Qed.

Lemma repeat_string_length (c : ascii) n :
  String.length (repeat_string (String c "") n) = n.
Proof.
  induction n as [|n IH]; [done|]. cbn [repeat_string].
  rewrite string_app_cons, string_app_empty_l. simpl. f_equal. apply IH.
Qed.

Lemma remainder_zero (i : nat) (k : Z) :
  k ≠ 0%Z → (Z.of_nat i `mod` k)%Z = 0%Z ↔ i mod Z.abs_nat k = 0.
Proof.
  intros Hk.
  assert (Habs : Z.of_nat (Z.abs_nat k) = Z.abs k) by lia.
  split.
  - intros Hz. apply Nat2Z.inj. rewrite Nat2Z.inj_mod, Habs.
    destruct (Z.abs_spec k) as [[_ ->]|[_ ->]]; [done|].
    by apply Z_mod_zero_opp_r.
  - intros Hz. apply (f_equal Z.of_nat) in Hz.
    rewrite Nat2Z.inj_mod, Habs in Hz.
    destruct (Z.abs_spec k) as [[_ Heq]|[_ Heq]]; rewrite Heq in Hz; [done|].
    rewrite <- (Z.opp_involutive k). by apply Z_mod_zero_opp_r.
Qed.

Lemma display_entries_body k : k ≠ 0%Z → ∀ order i stdout,
  display_entries i order k stdout
  = Returned (stdout +:+ body (Z.abs_nat k) i order).
Proof.
  intros Hk. induction order as [|course rest IH]; intros i stdout;
    cbn [display_entries body].
  - by rewrite string_app_empty_r.
  - fold (entry_text i course).
    destruct (decide (0 < i)) as [Hi|Hi].
    + rewrite decide_False by done. rewrite IH. f_equal. unfold print, entry_text.
      destruct (decide ((Z.of_nat i `mod` k)%Z = 0%Z)) as [Hz|Hz].
      * rewrite decide_True by (split; [done|by apply remainder_zero]).
        simpl. by rewrite !string_app_assoc.
      * rewrite decide_False by (intros [_ ?]; by apply Hz, remainder_zero).
        simpl. by rewrite !string_app_assoc.
    + rewrite IH. f_equal. rewrite decide_False by (by intros [? _]).
      unfold print, entry_text. simpl. by rewrite !string_app_assoc.
Qed.

Lemma numbered_length order : ∀ i, length (numbered i order) = length order.
Proof. induction order as [|c rest IH]; intros i; simpl; [done|]. by rewrite IH. Qed.

Lemma numbered_take order : ∀ m i,
  take m (numbered i order) = numbered i (take m order).
Proof.
  induction order as [|c rest IH]; intros [|m] i; simpl; [done..|].
  by rewrite IH.
Qed.

Lemma numbered_drop order : ∀ m i,
  drop m (numbered i order) = numbered (i + m) (drop m order).
Proof.
  induction order as [|c rest IH]; intros [|m] i; simpl; try done.
  - by rewrite Nat.add_0_r.
  - rewrite IH. f_equal. lia.
Qed.

(** Within a row the loop prints the entries one after the other. *)
Lemma body_run k : ∀ m i order,
  (∀ j, j < m → 0 < i + j → (i + j) mod k ≠ 0) →
  body k i order
  = cat (numbered i (take m order)) +:+ body k (i + m) (drop m order).
Proof.
  induction m as [|m IH]; intros i order Hrow.
  - simpl. by rewrite Nat.add_0_r.
  - destruct order as [|course rest]; [done|].
    cbn [take drop numbered body cat foldr].
    rewrite decide_False.
    2:{ intros [Hi Hz]. apply (Hrow 0); [lia|lia|]. by rewrite Nat.add_0_r. }
    simpl. rewrite (IH (S i) rest).
    2:{ intros j Hj _. replace (S i + j) with (i + S j) by lia.
        apply Hrow; lia. }
    fold (cat (numbered (S i) (take m rest))).
    rewrite string_app_empty_l, string_app_assoc.
    by replace (S i + m) with (i + S m) by lia.
Qed.

Lemma body_rows k : 0 < k → ∀ fuel q order,
  length order ≤ fuel → order ≠ [] →
  body k (q * k) order
  = (if decide (0 < q) then newline else "")
    +:+ String.concat newline (cat <$> rows_within fuel k (numbered (q * k) order)).
Proof.
  intros Hk. induction fuel as [|fuel IH]; intros q order Hlen Hne.
  { destruct order; [done|simpl in Hlen; lia]. }
  destruct order as [|course rest]; [done|].
  assert (Hrow : body k (q * k) (course :: rest)
    = (if decide (0 < q) then newline else "")
      +:+ cat (numbered (q * k) (take k (course :: rest)))
      +:+ body k (S q * k) (drop k (course :: rest))).
  { destruct k as [|k]; [lia|]. cbn [take drop numbered body cat foldr].
    rewrite (body_run (S k) k (S (q * S k)) rest).
    2:{ intros j Hj _. replace (S (q * S k) + j) with (S j + q * S k) by lia.
        rewrite Nat.Div0.mod_add, Nat.mod_small by lia. lia. }
    fold (cat (numbered (S (q * S k)) (take k rest))).
    replace (S (q * S k) + k) with (S q * S k) by lia.
    destruct (decide (0 < q)) as [Hq|Hq].
    - rewrite decide_True.
      2:{ split; [nia|]. by rewrite Nat.Div0.mod_mul. }
      by rewrite !string_app_assoc.
    - rewrite decide_False by (intros [? _]; nia).
      by rewrite !string_app_assoc. }
  rewrite Hrow. clear Hrow.
  cbn [numbered rows_within]. f_equal.
  change (entry_text (q * k) course :: numbered (S (q * k)) rest)
    with (numbered (q * k) (course :: rest)).
  rewrite numbered_take, numbered_drop.
  replace (q * k + k) with (S q * k) by lia.
  destruct (drop k (course :: rest)) as [|c' rest'] eqn:Hdrop.
  - destruct fuel; simpl; by rewrite !string_app_empty_r.
  - rewrite (IH (S q) (c' :: rest')); [|rewrite <- Hdrop, length_drop; simpl in *; lia|done].
    rewrite decide_True by lia.
    destruct fuel as [|fuel'].
    { assert (length (drop k (course :: rest)) ≤ 0)
        by (rewrite length_drop; simpl in *; lia).
      rewrite Hdrop in *. simpl in *. lia. }
    cbn [rows_within numbered fmap list_fmap String.concat]. done.
Qed.

Lemma rows_within_facts {A} k : 0 < k → ∀ fuel (l : list A),
  length l ≤ fuel →
  concat (rows_within fuel k l) = l ∧
  Forall (λ row, 0 < length row ≤ k) (rows_within fuel k l) ∧
  ∀ j row, rows_within fuel k l !! j = Some row →
           S j < length (rows_within fuel k l) → length row = k.
Proof.
  intros Hk. induction fuel as [|fuel IH]; intros l Hlen.
  { destruct l; [|simpl in Hlen; lia]. split_and!; [done|constructor|done]. }
  destruct l as [|x l]; [split_and!; [done|constructor|done]|].
  cbn [rows_within].
  destruct (IH (drop k (x :: l))) as (Hcat & Hall & Hfull).
  { rewrite length_drop. simpl in *. lia. }
  split_and!.
  - cbn [concat]. rewrite Hcat. apply take_drop.
  - constructor; [|done]. rewrite length_take. simpl. lia.
  - intros [|j] row; cbn [lookup list_lookup length].
    + intros [= <-] Hmore.
      destruct (drop k (x :: l)) as [|y l'] eqn:Hdrop.
      { destruct fuel; simpl in Hmore; lia. }
      assert (Hl : length (drop k (x :: l)) = S (length l')) by (by rewrite Hdrop).
      rewrite length_drop in Hl. rewrite length_take. lia.
    + intros Hrow Hmore. apply (Hfull j row Hrow). lia.
Qed.

(** X11 (the layout of the printed order). For an [order] that is not
    empty and a [courses_per_line] other than [0], of absolute value [n],
    [display_topological_order] returns, and it has printed the heading, the
    entries numbered from [01] in rows separated by line feeds, and the
    closing lines. The rows hold the entries in order, [n] to a row, except
    that the last row may hold fewer. *)
Theorem display_layout order courses_per_line :
  order ≠ [] → courses_per_line ≠ 0%Z →
  let n := Z.abs_nat courses_per_line in
  let table := rows n (numbered 0 order) in
  display_topological_order order courses_per_line
    = Returned (heading +:+ String.concat newline (cat <$> table)
                +:+ closing_refined) ∧
  concat table = numbered 0 order ∧
  Forall (λ row, 0 < length row ≤ n) table ∧
  ∀ j row, table !! j = Some row → S j < length table → length row = n.
Proof.
  intros Hne Hk n table.
  assert (Hn : 0 < n) by (unfold n; lia).
  split; [|by apply rows_within_facts].
  unfold display_topological_order. rewrite decide_False by done.
  rewrite display_entries_body by done. f_equal. fold n.
  change (body n 0 order) with (body n (0 * n) order).
  rewrite (body_rows n Hn (length (numbered 0 order)) 0 order);
    [|by rewrite numbered_length|done].
  rewrite decide_False by lia. fold (rows n (numbered (0 * n) order)).
  change (rows n (numbered (0 * n) order)) with table.
  unfold print, heading, closing_refined.
  by rewrite !string_app_assoc, ?string_app_empty_l.
Qed.

Lemma display_layout_witness :
  display_topological_order ["A"; "B"; "C"]%string 2
  = Returned (heading
      +:+ String.concat newline
            (cat <$> [[entry_text 0 "A"; entry_text 1 "B"]; [entry_text 2 "C"]])
      +:+ closing_refined).
Proof.
  refine (proj1 (display_layout ["A"; "B"; "C"]%string 2 _ _)); done.
Defined.

(** X12 (the two files print alike). On every [order] and every
    [courses_per_line] the method of [Reorganized_Project2.py] ends as the
    method of [Project2_Refined.py] ends; what they print is the same text,
    but for the line under the closing rule, which is worded differently. *)
Theorem display_differs_in_closing order courses_per_line :
  match Refined.display_topological_order order courses_per_line,
        Reorganized.display_topological_order order courses_per_line with
  | Returned text, Returned text' =>
      (order = [] ∧ text = cycle_report ∧ text' = cycle_report) ∨
      (order ≠ [] ∧ ∃ common,
         text = common +:+ closing_refined ∧
         text' = common +:+ closing_reorganized)
  | ZeroDivisionError text, ZeroDivisionError text' => text = text'
  | _, _ => False
  end.
Proof.
  unfold Refined.display_topological_order, Reorganized.display_topological_order.
  destruct (decide (order = [])) as [->|Hne]; [by left|].
  change (Reorganized.display_entries 0 order courses_per_line)
    with (Refined.display_entries 0 order courses_per_line).
  destruct (Refined.display_entries 0 order courses_per_line _) as [text|text];
    [|done].
  right. split; [done|]. exists text. unfold print, closing_refined, closing_reorganized.
  by rewrite !string_app_assoc.
Qed.

Lemma format_02_width n : 0 < n < 100 → String.length (format_02 n) = 2.
Proof.
  intros Hn.
  assert (Hall : Forall (λ m, String.length (format_02 m) = 2) (seq 1 99)).
  { refine (bool_decide_unpack _ _). vm_compute. exact I. }
  rewrite Forall_forall in Hall. apply Hall, elem_of_seq. lia.
Qed.

(** X13 (columns line up). Each of the first 99 entries that
    [display_topological_order] prints for a course code of ten characters
    or fewer is 17 characters wide, separator included; a longer code is
    printed whole and makes its entry wider by what it has beyond ten. *)
Theorem entry_width i course :
  i < 99 →
  String.length (entry_text i course) = 7 + max 10 (String.length course).
Proof.
  intros Hi. unfold entry_text, format_left_10.
  rewrite !string_length_app, repeat_string_length, format_02_width by lia.
  simpl. lia.
Qed.

Lemma entry_width_witness : String.length (entry_text 0 "CS 1411") = 17.
Proof. exact (entry_width 0 "CS 1411" ltac:(lia)). Defined.

(** ** The second file builds and sorts alike *)

Lemma build_from_simulates table :
  simulates to_reorganized (Refined.build_from table) (Reorganized.build_from table).
Proof.
  unfold Refined.build_from, Reorganized.build_from.
  apply simulates_bind.
  - apply simulates_for_each. apply add_vertex_simulates.
  - intros _. apply simulates_for_each. intros [course prereqs].
    apply simulates_for_each. intros prereq. apply add_edge_simulates.
Qed.

(** X14 (the two files build and sort alike). For any table of
    prerequisites, building the graph and sorting it with the class and the
    loops of [Reorganized_Project2.py] gives the sequence, and leaves the
    adjacency mapping, that [Project2_Refined.py] gives, and fails where it
    fails, under any depth of recursion that the interpreter allows; the
    tables of the two files are the same. *)
Theorem build_and_sort_agree depth table :
  (Reorganized.build_from table ;;; Reorganized.topological_sort depth)
    Reorganized.init
  = outcome_state to_reorganized
      ((Refined.build_from table ;;; Refined.topological_sort depth)
         Refined.init) ∧
  Reorganized.prerequisites = Refined.prerequisites.
Proof.
  split; [|done].
  change Reorganized.init with (to_reorganized Refined.init).
  apply simulates_bind; [apply build_from_simulates|].
  intros _. apply topological_sort_simulates.
Qed.

(** ** What a call of [dfs] may change *)

Lemma chain_dfs : ∃ a', dfs 4 "A" (enter chain) = Ok (tt, a').
Proof. eexists. vm_compute. reflexivity. Defined.

(** X15 (the frame of [dfs]). A call of [dfs] that completes leaves the
    object alone, keeps what is in the output and only adds in front of it,
    never clears a flagged cycle, and changes the marker of a vertex in one
    way only: from unvisited to finished. A vertex in progress, that is a
    caller on the recursion path, keeps its marker, and so does a finished
    one. *)
Theorem dfs_frame n v a a' :
  dfs n v a = Ok (tt, a') →
  self a' = self a ∧
  (∃ new, topological_order a' = new ++ topological_order a) ∧
  (is_dag a = false → is_dag a' = false) ∧
  (∀ w, visit_state a !! w = Some 1 ↔ visit_state a' !! w = Some 1) ∧
  (∀ w, visit_state a !! w = Some 2 → visit_state a' !! w = Some 2) ∧
  (∀ w, visit_state a' !! w ≠ visit_state a !! w →
        visit_state a' !! w = Some 2 ∧ unvisited (visit_state a) w).
Proof.
  intros Hext%dfs_extends. split_and!.
  - apply (ext_self a a' Hext).
  - apply (ext_order a a' Hext).
  - intros Hflag. destruct (is_dag a') eqn:Hflag'; [|done].
    rewrite (ext_dag a a' Hext Hflag') in Hflag. done.
  - intros w. symmetry. by apply extends_in_progress.
  - intros w. by apply extends_done.
  - intros w Hne. by destruct (ext_state a a' Hext w).
Qed.

Lemma dfs_frame_witness :
  ∃ a', dfs 4 "A" (enter chain) = Ok (tt, a') ∧ self a' = chain.
Proof.
  destruct chain_dfs as [a' Hrun]. exists a'. split; [exact Hrun|].
  exact (proj1 (dfs_frame 4 "A" (enter chain) a' Hrun)).
Defined.
